(** * Fontra client: the change / undo engine

    A shallow embedding of the change representation of
    [src/fontra/client/core/changes.js] (collector, consolidation, applier,
    path matcher) and of the font controller's undo stack, edit context and
    glyph dependency maps, followed by the properties established about
    them.

    Conventions.  A JavaScript object with optional keys is a record of
    [option] fields: [None] is an absent key.  Arrays are lists, in array
    order.  Objects used as dictionaries are finite maps.  Mutation in place
    is explicit state passing. *)

From Stdlib Require Import ZArith String Ascii List Bool Lia.
From Stdlib Require Import DecimalString.
From stdpp Require Import base option list gmap strings.

Set Warnings "-register-all,-clear-no-such-hyp".

Open Scope string_scope.
Open Scope list_scope.

(** ** JavaScript data *)

(** Plain data as it occurs in documents and in operation arguments.
    Numbers are integers here; array holes read as [VUndefined]. *)
Inductive value : Type :=
| VUndefined
| VNull
| VBool (b : bool)
| VNum (n : Z)
| VStr (s : string)
| VArr (items : list value)
| VObj (fields : list (string * value)).

(** A path segment: an object key or an array index. *)
Inductive segment : Type :=
| Key (s : string)
| Index (n : nat).

Global Instance segment_eq_dec : EqDecision segment.
Proof. solve_decision. Defined.

Abbreviation path := (list segment).

(** JavaScript truthiness of a segment: [""] and [0] are falsy. *)
Definition truthy (s : segment) : bool :=
  match s with
  | Key k => negb (String.eqb k "")
  | Index n => negb (Nat.eqb n 0)
  end.

(** [x !== y] on segments; [None] stands for [undefined] (reading past the
    end of an array). *)
Definition strictNe (x y : option segment) : bool :=
  negb (bool_decide (x = y)).

(** ** Change objects

    A change is an object with the optional keys ["p"] (path), ["f"]
    (function name), ["a"] (arguments) and ["c"] (children). *)
Inductive change : Type :=
  Change { ch_p : option path;
           ch_f : option string;
           ch_a : option (list value);
           ch_c : option (list change) }.

(** The object literal [{}]. *)
Definition emptyChange : change := Change None None None None.

(** [!!change.f]: the key is present and not the empty string. *)
Definition hasFunction (ch : change) : bool :=
  match ch_f ch with
  | Some name => negb (String.eqb name "")
  | None => false
  end.

(** [isNotEmpty(obj)]: the object has at least one key. *)
Definition isNotEmpty (obj : change) : bool :=
  match obj with
  | Change None None None None => false
  | _ => true
  end.

(** [change.p = path] when [path.length], [delete change.p] otherwise. *)
Definition pathField (q : path) : option path :=
  match q with
  | [] => None
  | _ => Some q
  end.

(** [x || []] for an optional array. *)
Definition orEmpty {A : Type} (x : option (list A)) : list A :=
  match x with
  | Some l => l
  | None => []
  end.

(** ** Consolidation *)

Fixpoint unnestSingleChildren (ch : change) : change :=
  match ch with
  | Change p f a c =>
    let children :=
      match c with
      | Some l => Some (List.filter isNotEmpty (List.map unnestSingleChildren l))
      | None => None
      end in
    match children with
    | None =>
      if hasFunction ch then ch else emptyChange
    | Some [] =>
      if hasFunction ch then Change p f a None else emptyChange
    | Some [child] =>
      let childPath := orEmpty (ch_p child) in
      let path' :=
        match p with
        | Some ((_ :: _) as q) => q ++ childPath
        | _ => childPath
        end in
      Change (pathField path') (ch_f child) (ch_a child) (ch_c child)
    | Some children' =>
      Change p f a (Some children')
    end
  end.

Definition addPathPrefix (ch : change) (prefixPath : path) : change :=
  Change (Some (prefixPath ++ orEmpty (ch_p ch))) (ch_f ch) (ch_a ch) (ch_c ch).

(** The [while (true)] loop of [findCommonPrefix].  [first] is what is left
    of [changes[0].p] from position [index] on; [others] are the paths of
    [changes[1..]].  The loop ends when [changes[0].p[index]] is falsy
    (past the end, but also [0] or [""]) or some other path differs at
    [index]. *)
Fixpoint commonPrefixLoop (first : path) (others : list path) (index : nat) : path :=
  match first with
  | [] => []
  | pathElement :: rest =>
    if negb (truthy pathElement) then []
    else if existsb (fun q => strictNe (q !! index) (Some pathElement)) others then []
    else pathElement :: commonPrefixLoop rest others (S index)
  end.

(** [!change.p || !change.p.length] *)
Definition lacksPath (ch : change) : bool :=
  match ch_p ch with
  | Some (_ :: _) => false
  | _ => true
  end.

Definition findCommonPrefix (changes : list change) : path :=
  match changes with
  | [] => []
  | first :: others =>
    if existsb lacksPath changes then []
    else commonPrefixLoop (orEmpty (ch_p first)) (List.map (fun ch => orEmpty (ch_p ch)) others) 0
  end.

(** The callback of [changes.map] when a common prefix was found:
    [newChange.p = change.p.slice(numCommonElements)], deleted when empty.
    ([change.p] is present here: [findCommonPrefix] returned a non-empty
    prefix.) *)
Definition stripPrefix (numCommonElements : nat) (ch : change) : change :=
  Change (pathField (drop numCommonElements (orEmpty (ch_p ch))))
         (ch_f ch) (ch_a ch) (ch_c ch).

(** The callback of [changes.map] under [// Zap empty p]. *)
Definition zapEmptyPath (ch : change) : change :=
  match ch_p ch with
  | Some [] => Change None (ch_f ch) (ch_a ch) (ch_c ch)
  | _ => ch
  end.

(** [consolidateChanges] up to, and without, the call of
    [unnestSingleChildren]: the node built from the raw changes. *)
Definition wrapChanges (changes : list change) : change :=
  match changes with
  | [single] =>
    Change (pathField (orEmpty (ch_p single))) (ch_f single) (ch_a single) (ch_c single)
  | _ =>
    let commonPrefix := findCommonPrefix changes in
    let numCommonElements := length commonPrefix in
    match numCommonElements with
    | O => Change None None None (Some (List.map zapEmptyPath changes))
    | _ => Change (Some commonPrefix) None None
                  (Some (List.map (stripPrefix numCommonElements) changes))
    end
  end.

(** [consolidateChanges(changes, prefixPath)] for an array [changes];
    [prefixPath = None] is the omitted argument. *)
Definition consolidateChanges (changes : list change) (prefixPath : option path) : change :=
  let ch := unnestSingleChildren (wrapChanges changes) in
  match prefixPath with
  | Some ((_ :: _) as pre) => addPathPrefix ch pre
  | _ => ch
  end.

(** [consolidateChanges(change)] for a single object: [changes = [changes]]. *)
Definition consolidateChange (ch : change) (prefixPath : option path) : change :=
  consolidateChanges [ch] prefixPath.

(** ** The path matcher *)

(** The [for (const pathElement of path)] loop of [matchChange]: either an
    early [return] ([inl]) or the part of [matchPath] left after the
    [shift()]s ([inr]).  [shift()] on an empty array yields [undefined],
    which no path element equals. *)
Fixpoint matchPathLoop (nodePath matchPath : path) : bool + path :=
  match nodePath with
  | [] => inr matchPath
  | pathElement :: rest =>
    match matchPath with
    | [] => inl false
    | shifted :: matchPath' =>
      if strictNe (Some pathElement) (Some shifted) then inl false
      else match matchPath' with
           | [] => inl true
           | _ => matchPathLoop rest matchPath'
           end
    end
  end.

Fixpoint matchChange (ch : change) (matchPath : path) {struct ch} : bool :=
  match ch with
  | Change p _ _ c =>
    match matchPathLoop (orEmpty p) matchPath with
    | inl result => result
    | inr matchPath' =>
      match c with
      | Some children => existsb (fun subChange => matchChange subChange matchPath') children
      | None => false
      end
    end
  end.

(** ** The change collector

    [concat] reads only the two change arrays of the collectors involved;
    [None] is a list that was never materialised ([undefined]). *)
Record ChangeCollector : Type :=
  fromChangeArrays { forwardChanges : option (list change);
                     rollbackChanges : option (list change) }.

(** [!!this._forwardChanges?.length] *)
Definition hasChange (col : ChangeCollector) : bool :=
  match forwardChanges col with
  | Some (_ :: _) => true
  | _ => false
  end.

Definition hasRollbackChange (col : ChangeCollector) : bool :=
  match rollbackChanges col with
  | Some (_ :: _) => true
  | _ => false
  end.

(** One turn of [for (const other of others)]: [push(...)] appends,
    [splice(0, 0, ...)] inserts in front. *)
Definition concatStep (acc : list change * list change) (other : ChangeCollector)
  : list change * list change :=
  let '(fw, rb) := acc in
  (if hasChange other then fw ++ orEmpty (forwardChanges other) else fw,
   if hasRollbackChange other then orEmpty (rollbackChanges other) ++ rb else rb).

Definition concat (this : ChangeCollector) (others : list ChangeCollector) : ChangeCollector :=
  let fw0 := if hasChange this then [] ++ orEmpty (forwardChanges this) else [] in
  let rb0 := if hasRollbackChange this then [] ++ orEmpty (rollbackChanges this) else [] in
  let '(fw, rb) := fold_left concatStep others (fw0, rb0) in
  fromChangeArrays (Some fw) (Some rb).

(** [get change()] and [get rollbackChange()]: with nothing recorded the
    single object [{}] is consolidated. *)
Definition collectorChange (col : ChangeCollector) : change :=
  match forwardChanges col with
  | Some l => consolidateChanges l None
  | None => consolidateChange emptyChange None
  end.

Definition collectorRollbackChange (col : ChangeCollector) : change :=
  match rollbackChanges col with
  | Some l => consolidateChanges l None
  | None => consolidateChange emptyChange None
  end.

(** ** Applying a change to a document

    Documents are trees of plain data (no sharing between subtrees), so
    mutating the object a path leads to is the same as replacing the value
    at that path.  A call either returns, throws, or leaves the part of
    JavaScript that is modelled here ([Unmodelled]): properties inherited
    from a prototype, named properties on arrays, coercions of strings and
    objects to numbers.  What a throwing call leaves behind in the document
    is not modelled. *)

Inductive exn : Type :=
| InvalidChangePath (p : path)   (* [assert -- invalid change path] *)
| TypeError.

Inductive outcome (A : Type) : Type :=
| Returns (x : A)
| Throws (e : exn)
| Unmodelled.

Arguments Returns {A} x.
Arguments Throws {A} e.
Arguments Unmodelled {A}.

Definition bindOutcome {A B : Type} (o : outcome A) (k : A -> outcome B) : outcome B :=
  match o with
  | Returns x => k x
  | Throws e => Throws e
  | Unmodelled => Unmodelled
  end.

Module OutcomeNotations.
Notation "'let*' x := o 'in' k" := (bindOutcome o (fun x => k))
  (at level 10, x name, o at level 100, k at level 200).
End OutcomeNotations.
Import OutcomeNotations.

Definition decimal (n : nat) : string := NilZero.string_of_uint (Nat.to_uint n).

(** A string is an array index when it is the decimal form of a number
    below [2^32 - 1]. *)
Definition canonicalIndex (k : string) : option nat :=
  match NilZero.uint_of_string k with
  | Some d =>
    let n := N.of_uint d in
    if String.eqb (NilZero.string_of_uint (N.to_uint n)) k && (n <? 4294967295)%N
    then Some (N.to_nat n) else None
  | None => None
  end.

Definition propertyKey (s : segment) : string :=
  match s with
  | Key k => k
  | Index n => decimal n
  end.

Definition arrayIndex (s : segment) : option nat :=
  match s with
  | Key k => canonicalIndex k
  | Index n => Some n
  end.

(** The property names every plain object inherits. *)
Definition inheritedName (k : string) : bool :=
  bool_decide (k ∈ ["constructor"; "__proto__"; "hasOwnProperty"; "isPrototypeOf";
                    "propertyIsEnumerable"; "toLocaleString"; "toString"; "valueOf";
                    "__defineGetter__"; "__defineSetter__"; "__lookupGetter__";
                    "__lookupSetter__"]).

Fixpoint assocGet (k : string) (fields : list (string * value)) : option value :=
  match fields with
  | [] => None
  | (k', v) :: rest => if String.eqb k k' then Some v else assocGet k rest
  end.

Fixpoint assocSet (k : string) (v : value) (fields : list (string * value))
  : list (string * value) :=
  match fields with
  | [] => [(k, v)]
  | (k', v') :: rest =>
    if String.eqb k k' then (k', v) :: rest else (k', v') :: assocSet k v rest
  end.

Fixpoint assocDelete (k : string) (fields : list (string * value)) : list (string * value) :=
  match fields with
  | [] => []
  | (k', v') :: rest =>
    if String.eqb k k' then rest else (k', v') :: assocDelete k rest
  end.

(** [subject[pathElement]] *)
Definition getProperty (subject : value) (pathElement : segment) : outcome value :=
  match subject with
  | VUndefined | VNull => Throws TypeError
  | VObj fields =>
    match assocGet (propertyKey pathElement) fields with
    | Some v => Returns v
    | None => if inheritedName (propertyKey pathElement) then Unmodelled else Returns VUndefined
    end
  | VArr items =>
    match arrayIndex pathElement with
    | Some n => Returns (nth n items VUndefined)
    | None =>
      if String.eqb (propertyKey pathElement) "length"
      then Returns (VNum (Z.of_nat (length items))) else Unmodelled
    end
  | VStr s =>
    match arrayIndex pathElement with
    | Some n =>
      Returns (match String.get n s with Some ch => VStr (String ch "") | None => VUndefined end)
    | None =>
      if String.eqb (propertyKey pathElement) "length"
      then Returns (VNum (Z.of_nat (String.length s))) else Unmodelled
    end
  | VBool _ | VNum _ => Unmodelled
  end.


(** The [for (const pathElement of path)] loop of [applyChange]. *)
Fixpoint descendFrom (full rest : path) (subject : value) : outcome value :=
  match rest with
  | [] => Returns subject
  | pathElement :: rest' =>
    let* subject' := getProperty subject pathElement in
    match subject' with
    | VUndefined => Throws (InvalidChangePath full)
    | _ => descendFrom full rest' subject'
    end
  end.

Definition descend (p : path) (subject : value) : outcome value :=
  descendFrom p p subject.

(** The document seen from [parent] once the object under [pathElement] has
    become [child]. *)
Definition withChild (parent : value) (pathElement : segment) (child : value) : value :=
  match parent with
  | VObj fields => VObj (assocSet (propertyKey pathElement) child fields)
  | VArr items =>
    match arrayIndex pathElement with
    | Some n => VArr (<[n := child]> items)
    | None => parent
    end
  | _ => parent
  end.

(** The document once the object [p] leads to has become [resolved]. *)
Fixpoint replaceAt (p : path) (root resolved : value) : value :=
  match p with
  | [] => resolved
  | pathElement :: rest =>
    match getProperty root pathElement with
    | Returns child => withChild root pathElement (replaceAt rest child resolved)
    | _ => root
    end
  end.

(** *** The registry of change functions *)

(** [args[i]]; a missing argument is [undefined]. *)
Definition arg (i : nat) (args : list value) : value := nth i args VUndefined.

(** The property key a value stands for when used as [subject[key]]. *)
Definition toPropertyKey (key : value) : option string :=
  match key with
  | VStr s => Some s
  | VNum n =>
    Some (if (n <? 0)%Z then String.append "-" (decimal (Z.to_nat (- n)))
          else decimal (Z.to_nat n))
  | VBool true => Some "true"
  | VBool false => Some "false"
  | VNull => Some "null"
  | VUndefined => Some "undefined"
  | VArr _ | VObj _ => None
  end.

(** [ToIntegerOrInfinity] on the values whose conversion is modelled. *)
Definition toInteger (v : value) : option Z :=
  match v with
  | VNum n => Some n
  | VUndefined | VNull | VBool false => Some 0%Z
  | VBool true => Some 1%Z
  | VStr _ | VArr _ | VObj _ => None
  end.

(** ["="]: [subject[key] = item] (module code is strict: assigning to a
    property of a primitive throws). *)
Definition assignKey (subject key item : value) : outcome value :=
  match subject with
  | VUndefined | VNull => Throws TypeError
  | VBool _ | VNum _ | VStr _ =>
    match toPropertyKey key with
    | Some k => if String.eqb k "__proto__" then Unmodelled else Throws TypeError
    | None => Unmodelled
    end
  | VObj fields =>
    match toPropertyKey key with
    | Some k =>
      if String.eqb k "__proto__" then Unmodelled
      else Returns (VObj (assocSet k item fields))
    | None => Unmodelled
    end
  | VArr items =>
    match toPropertyKey key with
    | Some k =>
      match canonicalIndex k with
      | Some n =>
        if (n <? length items)%nat then Returns (VArr (<[n := item]> items))
        else Returns (VArr (items ++ replicate (n - length items) VUndefined ++ [item]))
      | None => Unmodelled
      end
    | None => Unmodelled
    end
  end.

(** ["d"]: [delete subject[key]] *)
Definition deleteKey (subject key : value) : outcome value :=
  match subject with
  | VUndefined | VNull => Throws TypeError
  | VBool _ | VNum _ =>
    match toPropertyKey key with
    | Some _ => Returns subject
    | None => Unmodelled
    end
  | VStr s =>
    match toPropertyKey key with
    | Some k =>
      match canonicalIndex k with
      | Some n => if (n <? String.length s)%nat then Throws TypeError else Returns subject
      | None => if String.eqb k "length" then Throws TypeError else Returns subject
      end
    | None => Unmodelled
    end
  | VObj fields =>
    match toPropertyKey key with
    | Some k => Returns (VObj (assocDelete k fields))
    | None => Unmodelled
    end
  | VArr items =>
    match toPropertyKey key with
    | Some k =>
      match canonicalIndex k with
      | Some n => Returns (VArr (<[n := VUndefined]> items))
      | None => if String.eqb k "length" then Throws TypeError else Returns subject
      end
    | None => Unmodelled
    end
  end.

(** [subject.splice(start, deleteCount, ...items)] *)
Definition splice (subject start deleteCount : value) (items : list value) : outcome value :=
  match subject with
  | VArr elements =>
    match toInteger start, toInteger deleteCount with
    | Some relativeStart, Some count =>
      let len := Z.of_nat (length elements) in
      let actualStart :=
        if (relativeStart <? 0)%Z then Z.max (len + relativeStart) 0
        else Z.min relativeStart len in
      let actualDeleteCount := Z.min (Z.max count 0) (len - actualStart) in
      Returns (VArr (take (Z.to_nat actualStart) elements ++ items ++
                     drop (Z.to_nat (actualStart + actualDeleteCount)) elements))
    | _, _ => Unmodelled
    end
  | _ => Throws TypeError
  end.

(** The methods of the outline collaborator ([setPointPosition],
    [insertContour], ...) exist on its class instances only: on plain data
    [path.method] is not a function. *)
Definition callPathMethod (subject : value) (args : list value) : outcome value :=
  Throws TypeError.

(** [changeFunctions[functionName]], [None] for [undefined]. *)
Definition changeFunctions (functionName : string)
  : option (value -> list value -> outcome value) :=
  if String.eqb functionName "=" then
    Some (fun subject args => assignKey subject (arg 0 args) (arg 1 args))
  else if String.eqb functionName "d" then
    Some (fun subject args => deleteKey subject (arg 0 args))
  else if String.eqb functionName "-" then
    Some (fun subject args =>
            splice subject (arg 0 args)
                   (match arg 1 args with VUndefined => VNum 1 | deleteCount => deleteCount end)
                   [])
  else if String.eqb functionName "+" then
    Some (fun subject args => splice subject (arg 0 args) (VNum 0) (drop 1 args))
  else if String.eqb functionName ":" then
    Some (fun subject args => splice subject (arg 0 args) (arg 1 args) (drop 2 args))
  else if bool_decide (functionName ∈ ["=xy"; "insertContour"; "deleteContour";
                                       "deletePoint"; "insertPoint"]) then
    Some callPathMethod
  else None.

(** [if (functionName) { changeFunc(subject, ...args) }]: calling
    [undefined] throws; an inherited name finds a method of
    [Object.prototype]. *)
Definition callChangeFunction (f : option string) (args : list value) (subject : value)
  : outcome value :=
  match f with
  | None => Returns subject
  | Some functionName =>
    if String.eqb functionName "" then Returns subject
    else match changeFunctions functionName with
         | Some changeFunc => changeFunc subject args
         | None => if inheritedName functionName then Unmodelled else Throws TypeError
         end
  end.

Fixpoint applyChange (subject : value) (ch : change) {struct ch} : outcome value :=
  match ch with
  | Change p f a c =>
    let* resolved := descend (orEmpty p) subject in
    let* resolved1 := callChangeFunction f (orEmpty a) resolved in
    let* resolved2 :=
      match c with
      | Some children =>
        (fix applyChildren (children : list change) (s : value) : outcome value :=
           match children with
           | [] => Returns s
           | subChange :: rest =>
             let* s' := applyChange s subChange in applyChildren rest s'
           end) children resolved1
      | None => Returns resolved1
      end in
    Returns (replaceAt (orEmpty p) subject resolved2)
  end.

(** [for (const subChange of children) applyChange(subject, subChange)] *)
Fixpoint applyChildren (children : list change) (subject : value) : outcome value :=
  match children with
  | [] => Returns subject
  | subChange :: rest =>
    let* subject' := applyChange subject subChange in applyChildren rest subject'
  end.

(** ** The undo stack *)

(** An undo record [{change, rollbackChange, info}]; [info] is an object
    with the keys [label], [undoSelection], [redoSelection], [location]. *)
Record UndoRecord : Type :=
  { rec_change : change;
    rec_rollbackChange : change;
    rec_info : list (string * value) }.

(** The two arrays of an [UndoStack]; the top of a stack is the last
    element. *)
Record UndoStack : Type :=
  { undoStack : list UndoRecord;
    redoStack : list UndoRecord }.

(** [new UndoStack()] *)
Definition newUndoStack : UndoStack := {| undoStack := []; redoStack := [] |}.

Definition pushUndoRecord (st : UndoStack) (undoRecord : UndoRecord) : UndoStack :=
  {| undoStack := undoStack st ++ [undoRecord]; redoStack := [] |}.

Definition getTopUndoRedoRecord (st : UndoStack) (isRedo : bool) : option UndoRecord :=
  let stack := if negb isRedo then undoStack st else redoStack st in
  match stack with
  | [] => None
  | _ => last stack
  end.

(** [_popUndoRedoRecord(popStack, pushStack)]: the returned record (or
    [undefined]) and the two arrays afterwards.  [splice(-1, 1)] removes the
    last element. *)
Definition _popUndoRedoRecord (popStack pushStack : list UndoRecord)
  : option UndoRecord * (list UndoRecord * list UndoRecord) :=
  match popStack with
  | [] => (None, (popStack, pushStack))
  | _ =>
    match last popStack with
    | Some undoRecord => (Some undoRecord, (removelast popStack, pushStack ++ [undoRecord]))
    | None => (None, (popStack, pushStack))
    end
  end.

Definition popUndoRedoRecord (st : UndoStack) (isRedo : bool) : option UndoRecord * UndoStack :=
  if negb isRedo then
    let '(r, (popped, pushed)) := _popUndoRedoRecord (undoStack st) (redoStack st) in
    (r, {| undoStack := popped; redoStack := pushed |})
  else
    let '(r, (popped, pushed)) := _popUndoRedoRecord (redoStack st) (undoStack st) in
    (r, {| undoStack := pushed; redoStack := popped |}).

(** A use of the stack: a push, an undo or a redo. *)
Inductive undoOp : Type :=
| Push (undoRecord : UndoRecord)
| Pop (isRedo : bool).

Definition runUndoOp (st : UndoStack) (op : undoOp) : UndoStack :=
  match op with
  | Push undoRecord => pushUndoRecord st undoRecord
  | Pop isRedo => snd (popUndoRedoRecord st isRedo)
  end.

Definition runUndoOps (ops : list undoOp) : UndoStack :=
  fold_left runUndoOp ops newUndoStack.

(** [for (const x of items) { ... }] over the state the body updates; the
    loop ends where the body does not return. *)
Fixpoint forEach {S A : Type} (body : S -> A -> outcome S) (items : list A) (s : S)
  : outcome S :=
  match items with
  | [] => Returns s
  | x :: rest => let* s' := body s x in forEach body rest s'
  end.

(** [obj[key]] on a plain object that is used as a map from names ([{}]
    and object literals, which inherit from [Object.prototype]).  A key the
    object holds gives its value and a key it does not hold gives
    [undefined], unless it is one of the names every object inherits: the
    lookup then finds the inherited function (the prototype itself for
    [__proto__]), which is truthy and is none of the values the callers
    store.  What the callers do with it is outside this model. *)
Definition lookupKey {A : Type} (obj : gmap string A) (key : string) : outcome (option A) :=
  match obj !! key with
  | Some v => Returns (Some v)
  | None => if inheritedName key then Unmodelled else Returns None
  end.

(** [map[k] || k] in [reverseUndoInfo]; [map] is an object literal with the
    keys [redoSelection] and [undoSelection]. *)
Definition reversedInfoKey (k : string) : outcome string :=
  let* renamed := lookupKey ({[ "redoSelection" := "undoSelection";
                                "undoSelection" := "redoSelection" ]} : gmap string string) k in
  match renamed with
  | Some k' => Returns k'
  | None => Returns k
  end.

Definition reverseUndoInfo (undoInfo : list (string * value))
  : outcome (list (string * value)) :=
  forEach (fun revUndoInfo '(k, v) =>
             let* k' := reversedInfoKey k in Returns (assocSet k' v revUndoInfo))
          undoInfo [].

Definition reverseUndoRecord (undoRecord : UndoRecord) : outcome UndoRecord :=
  let* info := reverseUndoInfo (rec_info undoRecord) in
  Returns {| rec_change := rec_rollbackChange undoRecord;
             rec_rollbackChange := rec_change undoRecord;
             rec_info := info |}.

(** ** The font controller *)

(** Calls that leave the modelled state: to the remote font, to the edit
    listeners, to the controller's own cache and document handling. *)
Inductive call : Type :=
| GlyphChanged (glyphName : string)
| ControllerApplyChange (ch : change)
| FontEditIncremental (ch : change)
| FontEditFinal (ch rollback : change) (label : value) (broadcast : bool)
| NotifyEditListeners (editMethodName : string)
| LaterNotifyEditListeners (editMethodName : string)
| PushUndoRecord (ch rollback : change) (undoInfo : list (string * value)).

(** The own keys of [glyphUsedBy], [glyphMadeOf] and [undoStacks]; they are
    read with [lookupKey]. *)
Record FontController : Type :=
  { glyphUsedBy : gmap string (gset string);
    glyphMadeOf : gmap string (list string);
    undoStacks : gmap string UndoStack;
    calls : list call }.

(** The state the constructor sets up. *)
Definition newFontController : FontController :=
  {| glyphUsedBy := ∅; glyphMadeOf := ∅; undoStacks := ∅; calls := [] |}.

(** What [updateGlyphDependencies] reads from its argument: [glyph.name] and
    the result of [glyph.getAllComponentNames()]. *)
Record GlyphController : Type :=
  { name : string;
    getAllComponentNames : list string }.

(** [// Zap previous used-by data for this glyph, if any]: the body of the
    first loop. *)
Definition zapUsedBy (glyphName : string) (usedBy : gmap string (gset string))
           (componentName : string) : outcome (gmap string (gset string)) :=
  let* found := lookupKey usedBy componentName in
  match found with
  | Some users => Returns (<[componentName := users ∖ {[glyphName]}]> usedBy)
  | None => Returns usedBy
  end.

(** The body of the second loop: create the set when missing, then add. *)
Definition addUsedBy (glyphName : string) (usedBy : gmap string (gset string))
           (componentName : string) : outcome (gmap string (gset string)) :=
  let* found := lookupKey usedBy componentName in
  let users := match found with
               | Some users => users
               | None => ∅
               end in
  Returns (<[componentName := users ∪ {[glyphName]}]> usedBy).

Definition updateGlyphDependencies (fc : FontController) (glyph : GlyphController)
  : outcome FontController :=
  let glyphName := name glyph in
  let* former := lookupKey (glyphMadeOf fc) glyphName in
  let* usedBy1 :=
    forEach (zapUsedBy glyphName)
            (match former with Some l => l | None => [] end)
            (glyphUsedBy fc) in
  let componentNames := getAllComponentNames glyph in
  let* usedBy2 := forEach (addUsedBy glyphName) componentNames usedBy1 in
  Returns {| glyphUsedBy := usedBy2;
             glyphMadeOf := <[glyphName := componentNames]> (glyphMadeOf fc);
             undoStacks := undoStacks fc;
             calls := calls fc |}.

(** [this.undoStacks[glyphName]?.getTopUndoRedoRecord(isRedo)?.info] *)
Definition getUndoRedoInfo (fc : FontController) (glyphName : string) (isRedo : bool)
  : outcome (option (list (string * value))) :=
  let* found := lookupKey (undoStacks fc) glyphName in
  match found with
  | Some stack =>
    match getTopUndoRedoRecord stack isRedo with
    | Some undoRecord => Returns (Some (rec_info undoRecord))
    | None => Returns None
    end
  | None => Returns None
  end.

(** [undoRedoGlyph(glyphName, isRedo)]: the returned [info] (or [undefined])
    and the controller afterwards.  The stack object is mutated in place by
    the pop, which is the [insert] here. *)
Definition undoRedoGlyph (fc : FontController) (glyphName : string) (isRedo : bool)
  : outcome (option (list (string * value)) * FontController) :=
  let* found := lookupKey (undoStacks fc) glyphName in
  match found with
  | None => Returns (None, fc)
  | Some stack =>
    let '(popped, stack') := popUndoRedoRecord stack isRedo in
    let stacks' := <[glyphName := stack']> (undoStacks fc) in
    match popped with
    | None =>
      Returns (None, {| glyphUsedBy := glyphUsedBy fc; glyphMadeOf := glyphMadeOf fc;
                        undoStacks := stacks'; calls := calls fc |})
    | Some undoRecord =>
      let* undoRecord :=
        if isRedo then reverseUndoRecord undoRecord else Returns undoRecord in
      let label := match assocGet "label" (rec_info undoRecord) with
                   | Some v => v
                   | None => VUndefined
                   end in
      Returns
        (Some (rec_info undoRecord),
         {| glyphUsedBy := glyphUsedBy fc; glyphMadeOf := glyphMadeOf fc;
            undoStacks := stacks';
            calls := calls fc ++
                     [ControllerApplyChange (rec_rollbackChange undoRecord);
                      FontEditFinal (rec_rollbackChange undoRecord) (rec_change undoRecord)
                                    label true;
                      LaterNotifyEditListeners "editFinal"] |})
    end
  end.

(** ** The glyph edit context

    Time enters through [Date.now()], given with each call, and through the
    timers of the event loop: [timers] holds the callbacks scheduled with
    [setTimeout] and not yet run or cleared, each with the change it will
    send.  [sent] lists the calls made so far, oldest first. *)

(** The closure variables of [throttleCalls(func, minTime)]. *)
Record Throttle : Type :=
  { lastTime : Z;
    timeoutID : option nat }.

Record GlyphEditContext : Type :=
  { glyphName : string;
    baseChangePath : path;
    throttle : Throttle;
    _throttledEditIncrementalTimeoutID : option nat;
    timers : list (nat * change);
    nextTimeoutID : nat;
    sent : list call }.

(** The constructor: [throttleCalls(..., 50)], no timer. *)
Definition minTime : Z := 50.

Definition newGlyphEditContext (glyphName : string) (baseChangePath : path)
  : GlyphEditContext :=
  {| glyphName := glyphName;
     baseChangePath := baseChangePath;
     throttle := {| lastTime := 0; timeoutID := None |};
     _throttledEditIncrementalTimeoutID := None;
     timers := [];
     nextTimeoutID := 1;
     sent := [] |}.

(** Assignments to one field. *)
Definition setThrottle (ctx : GlyphEditContext) (t : Throttle) : GlyphEditContext :=
  {| glyphName := glyphName ctx; baseChangePath := baseChangePath ctx;
     throttle := t;
     _throttledEditIncrementalTimeoutID := _throttledEditIncrementalTimeoutID ctx;
     timers := timers ctx; nextTimeoutID := nextTimeoutID ctx; sent := sent ctx |}.

Definition setThrottledTimeoutID (ctx : GlyphEditContext) (id : option nat)
  : GlyphEditContext :=
  {| glyphName := glyphName ctx; baseChangePath := baseChangePath ctx;
     throttle := throttle ctx;
     _throttledEditIncrementalTimeoutID := id;
     timers := timers ctx; nextTimeoutID := nextTimeoutID ctx; sent := sent ctx |}.

Definition setTimers (ctx : GlyphEditContext) (ts : list (nat * change)) (next : nat)
  : GlyphEditContext :=
  {| glyphName := glyphName ctx; baseChangePath := baseChangePath ctx;
     throttle := throttle ctx;
     _throttledEditIncrementalTimeoutID := _throttledEditIncrementalTimeoutID ctx;
     timers := ts; nextTimeoutID := next; sent := sent ctx |}.

(** A call leaves the edit context. *)
Definition emit (ctx : GlyphEditContext) (cs : list call) : GlyphEditContext :=
  {| glyphName := glyphName ctx; baseChangePath := baseChangePath ctx;
     throttle := throttle ctx;
     _throttledEditIncrementalTimeoutID := _throttledEditIncrementalTimeoutID ctx;
     timers := timers ctx; nextTimeoutID := nextTimeoutID ctx; sent := sent ctx ++ cs |}.

(** [clearTimeout(id)]: unknown and [null] ids are ignored. *)
Definition clearTimeout (id : option nat) (ts : list (nat * change))
  : list (nat * change) :=
  match id with
  | Some n => List.filter (fun t => negb (Nat.eqb (fst t) n)) ts
  | None => ts
  end.

(** The function returned by [throttleCalls], called with [change] at time
    [now]; its result is the [timeoutID] it returns. *)
Definition throttledEditIncremental (ctx : GlyphEditContext) (ch : change) (now : Z)
  : option nat * GlyphEditContext :=
  let ctx := setTimers ctx (clearTimeout (timeoutID (throttle ctx)) (timers ctx))
                       (nextTimeoutID ctx) in
  let ctx := setThrottle ctx {| lastTime := lastTime (throttle ctx); timeoutID := None |} in
  if (now - lastTime (throttle ctx) >? minTime)%Z then
    let ctx := emit ctx [FontEditIncremental ch] in
    (None, setThrottle ctx {| lastTime := now; timeoutID := None |})
  else
    let id := nextTimeoutID ctx in
    let ctx := setTimers ctx (timers ctx ++ [(id, ch)]) (S id) in
    (Some id, setThrottle ctx {| lastTime := lastTime (throttle ctx); timeoutID := Some id |}).

(** The event loop runs the callback of timer [id]:
    [timeoutID = null; func(...args)]. *)
Definition timerFires (ctx : GlyphEditContext) (id : nat) : GlyphEditContext :=
  match List.find (fun t => Nat.eqb (fst t) id) (timers ctx) with
  | Some (_, ch) =>
    let ctx := setTimers ctx (clearTimeout (Some id) (timers ctx)) (nextTimeoutID ctx) in
    let ctx := setThrottle ctx {| lastTime := lastTime (throttle ctx); timeoutID := None |} in
    emit ctx [FontEditIncremental ch]
  | None => ctx
  end.

Definition editIncremental (ctx : GlyphEditContext) (ch : change) (mayDrop : bool) (now : Z)
  : GlyphEditContext :=
  let ctx := emit ctx [GlyphChanged (glyphName ctx)] in
  let ch := consolidateChange ch (Some (baseChangePath ctx)) in
  let ctx :=
    if mayDrop then
      let '(id, ctx') := throttledEditIncremental ctx ch now in
      setThrottledTimeoutID ctx' id
    else
      let ctx := setTimers ctx (clearTimeout (_throttledEditIncrementalTimeoutID ctx)
                                             (timers ctx))
                           (nextTimeoutID ctx) in
      emit ctx [FontEditIncremental ch] in
  emit ctx [NotifyEditListeners "editIncremental"].

Definition editFinal (ctx : GlyphEditContext) (ch rollback : change)
           (undoInfo : list (string * value)) (broadcast : bool) : GlyphEditContext :=
  let ctx := if broadcast then emit ctx [GlyphChanged (glyphName ctx)] else ctx in
  let ch := consolidateChange ch (Some (baseChangePath ctx)) in
  let rollback := consolidateChange rollback (Some (baseChangePath ctx)) in
  let label := match assocGet "label" undoInfo with
               | Some v => v
               | None => VUndefined
               end in
  let ctx := emit ctx [FontEditFinal ch rollback label broadcast] in
  let ctx := emit ctx [NotifyEditListeners "editFinal"] in
  let ctx := emit ctx [NotifyEditListeners "editEnd"] in
  emit ctx [PushUndoRecord ch rollback undoInfo].

(** What can happen to an edit context, in the order it happens. *)
Inductive sessionEvent : Type :=
| CallEditIncremental (ch : change) (mayDrop : bool) (now : Z)
| CallEditFinal (ch rollback : change) (undoInfo : list (string * value)) (broadcast : bool)
| TimerFires (id : nat).

Definition sessionStep (ctx : GlyphEditContext) (ev : sessionEvent) : GlyphEditContext :=
  match ev with
  | CallEditIncremental ch mayDrop now => editIncremental ctx ch mayDrop now
  | CallEditFinal ch rollback undoInfo broadcast => editFinal ctx ch rollback undoInfo broadcast
  | TimerFires id => timerFires ctx id
  end.

Definition runSession (ctx : GlyphEditContext) (evs : list sessionEvent) : GlyphEditContext :=
  fold_left sessionStep evs ctx.

(** *** The dependency invariant *)

(** The users recorded for [a]: the set that [usedBy] holds under [a], empty
    when it holds none. *)
Definition usersIn (usedBy : gmap string (gset string)) (a : string) : gset string :=
  match usedBy !! a with
  | Some users => users
  | None => ∅
  end.

(** The components recorded for [b]: the list that [madeOf] holds under [b],
    empty when it holds none. *)
Definition componentsIn (madeOf : gmap string (list string)) (b : string) : list string :=
  match madeOf !! b with
  | Some l => l
  | None => []
  end.

(** [glyphUsedBy] is the transpose of [glyphMadeOf]: [b] is in [usedBy[a]]
    exactly when [a] is in [madeOf[b]]. *)
Definition isTranspose (fc : FontController) : Prop :=
  ∀ a b : string,
    b ∈ usersIn (glyphUsedBy fc) a ↔ a ∈ componentsIn (glyphMadeOf fc) b.

(** ** Sample data *)

Definition sampleRecord : UndoRecord :=
  {| rec_change := Change (Some [Key "glyphs"; Key "A"]) (Some "=")
                          (Some [VStr "xAdvance"; VNum 600]) None;
     rec_rollbackChange := Change (Some [Key "glyphs"; Key "A"]) (Some "=")
                                  (Some [VStr "xAdvance"; VNum 500]) None;
     rec_info := [("label", VStr "change advance")] |}.

(** A controller whose glyph ["A"] has something to undo and nothing to
    redo, and whose glyph ["Aacute"] is made of ["A"] and ["acute"]. *)
Definition sampleController : FontController :=
  {| glyphUsedBy := {[ "A" := {[ "Aacute" ]}; "acute" := {[ "Aacute" ]} ]};
     glyphMadeOf := {[ "Aacute" := ["A"; "acute"] ]};
     undoStacks := {[ "A" := {| undoStack := [sampleRecord]; redoStack := [] |} ]};
     calls := [] |}.

(** The path asked for in the matcher examples. *)
Definition glyphPathTarget : path := [Key "glyphs"; Key "A"; Key "path"].

(** A node at [["glyphs", "A"]] whose only child has no path and assigns
    the key ["path"] directly. *)
Definition directAssignNode : change :=
  Change (Some [Key "glyphs"; Key "A"]) None None
         (Some [Change None (Some "=") (Some [VStr "path"; VObj []]) None]).

(** ** Reasoning by induction on a change and its children *)

Section ChangeInduction.
Variable P : change → Prop.
Hypothesis Hleaf : ∀ p f a, P (Change p f a None).
Hypothesis Hnode : ∀ p f a children, Forall P children → P (Change p f a (Some children)).

Fixpoint change_children_ind (ch : change) : P ch :=
  match ch with
  | Change p f a None => Hleaf p f a
  | Change p f a (Some children) =>
    Hnode p f a children
          ((fix all (l : list change) : Forall P l :=
              match l with
              | [] => @List.Forall_nil _ P
              | x :: rest => @List.Forall_cons _ P x rest (change_children_ind x) (all rest)
              end) children)
  end.
End ChangeInduction.

(** The shape of what [unnestSingleChildren] returns: [{}], a node with a
    function and no children, or a node with at least two children that are
    of this shape themselves and not [{}]. *)
Fixpoint unnested (ch : change) : bool :=
  match ch with
  | Change p f a c =>
    match c with
    | None => hasFunction ch || negb (isNotEmpty ch)
    | Some children =>
      (2 <=? length children)%nat
      && forallb (fun child => unnested child && isNotEmpty child) children
    end
  end.


(** [change.p || []] *)
Definition pathOf (ch : change) : path := orEmpty (ch_p ch).







(** A document with one glyph. *)
Definition sampleDocument : value :=
  VObj [("glyphs", VObj [("A", VObj [("xAdvance", VNum 500);
                                     ("components", VArr [VStr "a"; VStr "b"])])])].



(** The calls that reach the remote font. *)
Definition isFontCall (c : call) : bool :=
  match c with
  | FontEditIncremental _ | FontEditFinal _ _ _ _ => true
  | _ => false
  end.

(** A drag of one point of glyph ["A"]: two droppable incremental changes
    10 ms apart, then the final change. *)
Definition movePoint (x : Z) : change :=
  Change (Some [Key "path"]) (Some "=xy") (Some [VNum 0; VNum x; VNum 0]) None.

Definition dragSession : list sessionEvent :=
  [CallEditIncremental (movePoint 10) true 1700000000000;
   CallEditIncremental (movePoint 20) true 1700000000010;
   CallEditFinal (movePoint 30) (movePoint 0) [("label", VStr "move point")] true].

Definition sentMovePoint (x : Z) : change :=
  Change (Some [Key "glyphs"; Key "A"; Key "path"]) (Some "=xy")
         (Some [VNum 0; VNum x; VNum 0]) None.


(** Three collectors that recorded one rollback each. *)
Definition deleteKeyChange (k : string) : change :=
  Change None (Some "d") (Some [VStr k]) None.

Definition rollbackOnly (k : string) : ChangeCollector :=
  fromChangeArrays None (Some [deleteKeyChange k]).

(** The glyph ["Aacute"] loaded with two components, and loaded again with
    one. *)
Definition aacute : GlyphController :=
  {| name := "Aacute"; getAllComponentNames := ["A"; "acute"] |}.


(** The controller after [updateGlyphDependencies(aacute)] on a new one. *)
Definition aacuteLoaded : FontController :=
  {| glyphUsedBy := {[ "A" := {[ "Aacute" ]}; "acute" := {[ "Aacute" ]} ]};
     glyphMadeOf := {[ "Aacute" := ["A"; "acute"] ]};
     undoStacks := ∅;
     calls := [] |}.


(** ** What a change does, seen from its shape *)

(** Some node of the change carries a function. *)
Fixpoint anyFunction (ch : change) : bool :=
  match ch with
  | Change p f a c =>
    hasFunction ch
    || match c with
       | Some children => existsb anyFunction children
       | None => false
       end
  end.

(** No node of the change has both a function of its own and exactly one
    child that carries a function somewhere. *)
Fixpoint keepsOwnFunctions (ch : change) : bool :=
  match ch with
  | Change p f a c =>
    match c with
    | Some children =>
      (negb (hasFunction ch)
       || negb (Nat.eqb (length (List.filter anyFunction children)) 1))
      && forallb keepsOwnFunctions children
    | None => true
    end
  end.

(** Values that are not objects or arrays. *)
Definition isPrimitive (v : value) : bool :=
  match v with
  | VObj _ | VArr _ => false
  | _ => true
  end.


(** A change that addresses the component list of glyph ["A"] without any
    function. *)
Definition inertChange : change :=
  Change (Some [Key "glyphs"]) None None
         (Some [Change (Some [Key "A"; Key "components"]) None (Some [VNum 0]) None]).


(** Two raw changes for glyph ["A"] of the sample document: a new advance
    width and the removal of the first component. *)
Definition advanceEdits : list change :=
  [Change (Some [Key "glyphs"; Key "A"]) (Some "=")
          (Some [VStr "xAdvance"; VNum 600]) None;
   Change (Some [Key "glyphs"; Key "A"; Key "components"]) (Some "-")
          (Some [VNum 0]) None].

Definition editedDocument : value :=
  VObj [("glyphs", VObj [("A", VObj [("xAdvance", VNum 600);
                                     ("components", VArr [VStr "b"])])])].

(** A wrapper around one assignment and one child without function. *)
Definition wrappedAssignment : change :=
  Change (Some [Key "glyphs"]) None None
         (Some [Change (Some [Key "A"]) (Some "=") (Some [VStr "xAdvance"; VNum 600]) None;
                Change (Some [Key "A"; Key "components"]) None None None]).

(** A node that assigns key [k1] itself and has one child assigning key
    [k2]. *)
Definition assignWithChild (k1 k2 : string) (v1 v2 : value) : change :=
  Change None (Some "=") (Some [VStr k1; v1])
         (Some [Change None (Some "=") (Some [VStr k2; v2]) None]).


(** The paths of all nodes of a change, each from the place the change is
    applied at. *)
Fixpoint nodePaths (ch : change) : list path :=
  match ch with
  | Change p f a c =>
    orEmpty p ::
    match c with
    | Some children =>
      flat_map (fun child => List.map (app (orEmpty p)) (nodePaths child)) children
    | None => []
    end
  end.


(** [undoRecord.info.label] *)
Definition labelOf (undoInfo : list (string * value)) : value :=
  match assocGet "label" undoInfo with
  | Some v => v
  | None => VUndefined
  end.

(** An undo record with all four entries of [info]. *)
Definition fullRecord : UndoRecord :=
  {| rec_change := Change (Some [Key "glyphs"; Key "A"]) (Some "=")
                          (Some [VStr "xAdvance"; VNum 600]) None;
     rec_rollbackChange := Change (Some [Key "glyphs"; Key "A"]) (Some "=")
                                  (Some [VStr "xAdvance"; VNum 500]) None;
     rec_info := [("label", VStr "change advance");
                  ("undoSelection", VArr [VStr "point/1"]);
                  ("redoSelection", VArr [VStr "point/2"]);
                  ("location", VObj [])] |}.


(** *** What a session submits and what reaches the remote font *)

(** The incremental changes among the calls made, in the order made. *)
Definition incrementalSent (cs : list call) : list change :=
  flat_map (fun c => match c with
                     | FontEditIncremental ch => [ch]
                     | _ => []
                     end) cs.

(** The incremental changes a sequence of events hands to
    [editIncremental], consolidated against the base path, in order. *)
Definition submitted (base : path) (evs : list sessionEvent) : list change :=
  flat_map (fun ev => match ev with
                      | CallEditIncremental ch _ _ => [consolidateChange ch (Some base)]
                      | _ => []
                      end) evs.

(** The changes waiting in timers. *)
Definition pending (ctx : GlyphEditContext) : list change := List.map snd (timers ctx).

(** What holds of an edit context during a session with base path [base]
    that has submitted [subm] so far: at most one timer is waiting, and it
    is the one both the throttle and the context remember; what was sent
    and what is waiting are, in this order, changes submitted in this order;
    and the last of them is the last one submitted. *)
Definition sessionInvariant (base : path) (ctx : GlyphEditContext) (subm : list change)
  : Prop :=
  baseChangePath ctx = base ∧
  (timers ctx = [] ∨
   ∃ id ch, timers ctx = [(id, ch)] ∧ timeoutID (throttle ctx) = Some id ∧
            _throttledEditIncrementalTimeoutID ctx = Some id) ∧
  (incrementalSent (sent ctx) ++ pending ctx) `sublist_of` subm ∧
  last (incrementalSent (sent ctx) ++ pending ctx) = last subm.


(** *** Changes with a single function and no path *)

(** [{f: "=", a: [key, item]}] *)
Definition assignChange (key : string) (item : value) : change :=
  Change None (Some "=") (Some [VStr key; item]) None.


(** [{f: "+", a: [index, ...items]}] *)
Definition insertChange (index : nat) (items : list value) : change :=
  Change None (Some "+") (Some (VNum (Z.of_nat index) :: items)) None.

(** [{f: "-", a: [index, deleteCount]}] *)
Definition removeChange (index deleteCount : nat) : change :=
  Change None (Some "-") (Some [VNum (Z.of_nat index); VNum (Z.of_nat deleteCount)]) None.

(** [{f: ":", a: [index, deleteCount, ...items]}] *)
Definition replaceChange (index deleteCount : nat) (items : list value) : change :=
  Change None (Some ":")
         (Some (VNum (Z.of_nat index) :: VNum (Z.of_nat deleteCount) :: items)) None.


(** * Properties *)

(** ** The undo stack *)

Section UndoStackFacts.
Implicit Types (R : UndoRecord) (l undo redo : list UndoRecord).

Lemma last_snoc l R : last (l ++ [R]) = Some R.
Proof. induction l as [|x l IH]; [done|]. destruct l; [done|]. exact IH. Qed.

Lemma removelast_snoc l R : removelast (l ++ [R]) = l.
Proof. apply removelast_last. Qed.

Lemma pop_snoc l R pushStack :
  _popUndoRedoRecord (l ++ [R]) pushStack = (Some R, (l, pushStack ++ [R])).
Proof.
  unfold _popUndoRedoRecord. rewrite last_snoc, removelast_snoc.
  destruct l; reflexivity.
Qed.

Lemma top_snoc_undo l redo R :
  getTopUndoRedoRecord {| undoStack := l ++ [R]; redoStack := redo |} false = Some R.
Proof.
  unfold getTopUndoRedoRecord; simpl. rewrite last_snoc. destruct l; reflexivity.
Qed.

Lemma top_snoc_redo undo l R :
  getTopUndoRedoRecord {| undoStack := undo; redoStack := l ++ [R] |} true = Some R.
Proof.
  unfold getTopUndoRedoRecord; simpl. rewrite last_snoc. destruct l; reflexivity.
Qed.

Lemma pop_undo_snoc l redo R :
  popUndoRedoRecord {| undoStack := l ++ [R]; redoStack := redo |} false
    = (Some R, {| undoStack := l; redoStack := redo ++ [R] |}).
Proof. unfold popUndoRedoRecord; simpl. now rewrite pop_snoc. Qed.

Lemma pop_redo_snoc undo l R :
  popUndoRedoRecord {| undoStack := undo; redoStack := l ++ [R] |} true
    = (Some R, {| undoStack := undo ++ [R]; redoStack := l |}).
Proof. unfold popUndoRedoRecord; simpl. now rewrite pop_snoc. Qed.

Lemma pop_redo_single undo R :
  popUndoRedoRecord {| undoStack := undo; redoStack := [R] |} true
    = (Some R, {| undoStack := undo ++ [R]; redoStack := [] |}).
Proof. exact (pop_redo_snoc undo [] R). Qed.

(** Undo and redo move records between the two stacks without losing or
    reordering any: the records of the undo stack followed by those of the
    redo stack from its top down stay the same list. *)
Lemma pop_keeps_timeline (st : UndoStack) (isRedo : bool) :
  let st' := snd (popUndoRedoRecord st isRedo) in
  undoStack st' ++ rev (redoStack st') = undoStack st ++ rev (redoStack st).
Proof.
  destruct st as [undo redo], isRedo.
  - destruct redo as [|x redo' _] using rev_ind; [reflexivity|].
    rewrite pop_redo_snoc; simpl. rewrite rev_unit, <- app_assoc. reflexivity.
  - destruct undo as [|x undo' _] using rev_ind; [reflexivity|].
    rewrite pop_undo_snoc; simpl. rewrite rev_unit, <- app_assoc. reflexivity.
Qed.
End UndoStackFacts.

(** C8.  [pushUndoRecord] empties the redo stack and puts the record on top
    of the undo stack; [popUndoRedoRecord] takes the top record off the
    stack chosen by [isRedo], puts that same record on top of the other
    stack and returns it.  Hence, from the empty stack and from the stack
    any sequence of pushes, undos and redos leads to: after pushing [R], an
    undo returns [R] and leaves it as the redo top, the redo that follows
    returns [R] again, leaves it as the undo top, and restores the stack as
    it was after the push. *)
Theorem undo_redo_ping_pong (undo redo rest : list UndoRecord) (R : UndoRecord)
        (ops : list undoOp) :
  pushUndoRecord {| undoStack := undo; redoStack := redo |} R
    = {| undoStack := undo ++ [R]; redoStack := [] |} ∧
  popUndoRedoRecord {| undoStack := rest ++ [R]; redoStack := redo |} false
    = (Some R, {| undoStack := rest; redoStack := redo ++ [R] |}) ∧
  popUndoRedoRecord {| undoStack := undo; redoStack := rest ++ [R] |} true
    = (Some R, {| undoStack := undo ++ [R]; redoStack := rest |}) ∧
  (let pushed := pushUndoRecord (runUndoOps ops) R in
   let undone := snd (popUndoRedoRecord pushed false) in
   let redone := snd (popUndoRedoRecord undone true) in
   fst (popUndoRedoRecord pushed false) = Some R ∧
   getTopUndoRedoRecord undone true = Some R ∧
   fst (popUndoRedoRecord undone true) = Some R ∧
   getTopUndoRedoRecord redone false = Some R ∧
   redone = pushed) ∧
  (let pushed := pushUndoRecord newUndoStack R in
   popUndoRedoRecord pushed false
     = (Some R, {| undoStack := []; redoStack := [R] |}) ∧
   getTopUndoRedoRecord {| undoStack := []; redoStack := [R] |} true = Some R ∧
   popUndoRedoRecord {| undoStack := []; redoStack := [R] |} true = (Some R, pushed) ∧
   getTopUndoRedoRecord pushed false = Some R).
Proof.
  split; [reflexivity|].
  split; [apply pop_undo_snoc|].
  split; [apply pop_redo_snoc|].
  split.
  - destruct (runUndoOps ops) as [u r]. unfold pushUndoRecord; simpl.
    rewrite pop_undo_snoc; simpl.
    repeat split. apply top_snoc_undo.
  - simpl. repeat split.
Qed.



(** Reading a name from an object used as a map. *)
Lemma lookupKey_returns {A : Type} (obj : gmap string A) (key : string) (found : option A) :
  lookupKey obj key = Returns found → obj !! key = found.
Proof.
  unfold lookupKey. destruct (obj !! key); [now intros [= <-]|].
  destruct (inheritedName key); [discriminate|now intros [= <-]].
Qed.

Lemma lookupKey_own {A : Type} (obj : gmap string A) (key : string) (v : A) :
  obj !! key = Some v → lookupKey obj key = Returns (Some v).
Proof. unfold lookupKey. now intros ->. Qed.

Lemma lookupKey_modelled {A : Type} (obj : gmap string A) (key : string) :
  inheritedName key = false → lookupKey obj key = Returns (obj !! key).
Proof. unfold lookupKey. intros ->. now destruct (obj !! key). Qed.


(** ** The change collector *)

Lemma push_when_hasChange (other : ChangeCollector) (fw : list change) :
  (if hasChange other then fw ++ orEmpty (forwardChanges other) else fw)
  = fw ++ orEmpty (forwardChanges other).
Proof.
  unfold hasChange. destruct (forwardChanges other) as [[|x l]|]; simpl;
    now rewrite ?app_nil_r.
Qed.

Lemma splice_when_hasRollbackChange (other : ChangeCollector) (rb : list change) :
  (if hasRollbackChange other then orEmpty (rollbackChanges other) ++ rb else rb)
  = orEmpty (rollbackChanges other) ++ rb.
Proof.
  unfold hasRollbackChange. destruct (rollbackChanges other) as [[|x l]|]; reflexivity.
Qed.

Lemma concat_loop (others : list ChangeCollector) (fw rb : list change) :
  fold_left concatStep others (fw, rb)
  = (fw ++ flat_map (fun o => orEmpty (forwardChanges o)) others,
     flat_map (fun o => orEmpty (rollbackChanges o)) (rev others) ++ rb).
Proof.
  revert fw rb. induction others as [|o others IH]; intros fw rb; simpl.
  - now rewrite app_nil_r.
  - rewrite push_when_hasChange, splice_when_hasRollbackChange, IH.
    rewrite flat_map_app; simpl. now rewrite !app_nil_r, <- !app_assoc.
Qed.

(** C3, as the code has it.  [c.concat(o1, ..., on)] has as forward list
    the forward list of [c] followed by those of [o1], ..., [on] in this
    order, and as rollback list the rollback lists of [on], ..., [o1] in
    this order, the last argument's first, followed by the one of [c]. *)
Theorem concat_orders (this : ChangeCollector) (others : list ChangeCollector) :
  forwardChanges (concat this others)
    = Some (orEmpty (forwardChanges this)
            ++ flat_map (fun o => orEmpty (forwardChanges o)) others) ∧
  rollbackChanges (concat this others)
    = Some (flat_map (fun o => orEmpty (rollbackChanges o)) (rev others)
            ++ orEmpty (rollbackChanges this)).
Proof.
  unfold concat. rewrite concat_loop; simpl.
  pose proof (push_when_hasChange this []) as Hf.
  pose proof (splice_when_hasRollbackChange this []) as Hr.
  simpl in Hf. rewrite app_nil_r in Hr. rewrite Hf, Hr. split; reflexivity.
Qed.

(** C3, as stated, fails: with two other collectors the rollbacks of the
    second come before those of the first. *)
Lemma concat_rollbacks_not_in_argument_order :
  rollbackChanges (concat (rollbackOnly "k0") [rollbackOnly "k1"; rollbackOnly "k2"])
  = Some [deleteKeyChange "k2"; deleteKeyChange "k1"; deleteKeyChange "k0"] ∧
  rollbackChanges (concat (rollbackOnly "k0") [rollbackOnly "k1"; rollbackOnly "k2"])
  ≠ Some ([deleteKeyChange "k1"] ++ [deleteKeyChange "k2"] ++ [deleteKeyChange "k0"]).
Proof. split; [reflexivity|discriminate]. Qed.

(** ** Consolidation and application of the empty change *)

(** C6.  Consolidating the single raw change [{}] (as a one-element array
    or as the object itself) gives [{}], the node without path, operation
    and children, and applying it to any document returns with the document
    unchanged. *)
Theorem empty_change_is_noop (doc : value) :
  consolidateChanges [emptyChange] None = emptyChange ∧
  consolidateChange emptyChange None = emptyChange ∧
  ch_p emptyChange = None ∧ ch_f emptyChange = None ∧ ch_c emptyChange = None ∧
  applyChange doc emptyChange = Returns doc.
Proof. repeat split. Qed.


(** ** The path matcher *)

Lemma strictNe_same (s : segment) : strictNe (Some s) (Some s) = false.
Proof. unfold strictNe. now rewrite bool_decide_eq_true_2. Qed.

Lemma strictNe_other (s t : segment) : s ≠ t → strictNe (Some s) (Some t) = true.
Proof. intros H. unfold strictNe. rewrite bool_decide_eq_false_2; [reflexivity|congruence]. Qed.

(** C2, as the code has it.  For a node with path [["glyphs", "A"]] and the
    target [["glyphs", "A", "path"]]: the answer is whether some child
    matches [["path"]]; it is [true] when some child has the path
    [["path"]]; a child without path matches exactly when one of its own
    children does, whatever its operation, so a child with a direct
    operation and no children does not match; and the answer is [false]
    when the node's path differs from the target in its first or second
    segment. *)
Theorem matchChange_glyph_path
        (f cf : option string) (a ca : option (list value))
        (c cc grand : option (list change)) (before after : list change)
        (other : segment) (rest : path) :
  matchChange (Change (Some [Key "glyphs"; Key "A"]) f a c) glyphPathTarget
    = existsb (fun child => matchChange child [Key "path"]) (orEmpty c) ∧
  matchChange (Change (Some [Key "glyphs"; Key "A"]) f a
                      (Some (before ++ Change (Some [Key "path"]) cf ca cc :: after)))
              glyphPathTarget = true ∧
  matchChange (Change None cf ca grand) [Key "path"]
    = existsb (fun sub => matchChange sub [Key "path"]) (orEmpty grand) ∧
  matchChange (Change None cf ca None) [Key "path"] = false ∧
  (other ≠ Key "glyphs" →
   matchChange (Change (Some (other :: rest)) f a c) glyphPathTarget = false) ∧
  (other ≠ Key "A" →
   matchChange (Change (Some (Key "glyphs" :: other :: rest)) f a c) glyphPathTarget
     = false).
Proof.
  assert (Hnode : ∀ c', matchChange (Change (Some [Key "glyphs"; Key "A"]) f a c')
                               glyphPathTarget
                   = existsb (fun child => matchChange child [Key "path"]) (orEmpty c'))
    by (intros [l|]; reflexivity).
  split; [apply Hnode|].
  split.
  { rewrite Hnode. unfold orEmpty. rewrite existsb_app.
    assert (matchChange (Change (Some [Key "path"]) cf ca cc) [Key "path"] = true)
      as Hchild by reflexivity.
    cbn [existsb]. rewrite Hchild. apply orb_true_r. }
  split; [destruct grand; reflexivity|].
  split; [reflexivity|].
  split; intros Hne; cbn -[strictNe]; rewrite ?strictNe_same, strictNe_other;
    try reflexivity; assumption.
Qed.

Lemma matchChange_glyph_path_witness :
  matchChange (Change (Some [Key "fontInfo"]) None None None) glyphPathTarget = false ∧
  matchChange (Change (Some [Key "glyphs"; Key "B"]) None None None) glyphPathTarget = false.
Proof.
  pose proof (matchChange_glyph_path None None None None None None None [] []
                (Key "fontInfo") []) as H1.
  pose proof (matchChange_glyph_path None None None None None None None [] []
                (Key "B") []) as H2.
  split.
  - apply H1. discriminate.
  - apply H2. discriminate.
Defined.

(** C2, as stated, fails: a child without path but with a direct operation
    does not make the node match. *)
Lemma direct_operation_child_does_not_match :
  ch_p directAssignNode = Some [Key "glyphs"; Key "A"] ∧
  ch_c directAssignNode = Some [Change None (Some "=") (Some [VStr "path"; VObj []]) None] ∧
  matchChange directAssignNode glyphPathTarget = false.
Proof. repeat split. Qed.

(** ** The glyph dependency maps *)

Section Dependencies.
Implicit Types (usedBy : gmap string (gset string)) (a b g c : string)
         (l : list string).

Lemma lookup_zap g usedBy usedBy' c a :
  zapUsedBy g usedBy c = Returns usedBy' →
  usedBy' !! a
  = if decide (a = c) then (fun users => users ∖ {[g]}) <$> usedBy !! a else usedBy !! a.
Proof.
  unfold zapUsedBy.
  destruct (lookupKey usedBy c) as [found| |] eqn:Hfound; cbn [bindOutcome]; try discriminate.
  apply lookupKey_returns in Hfound.
  destruct found as [users|]; intros [= <-].
  - destruct (decide (a = c)) as [->|Hne].
    + now rewrite lookup_insert_eq, Hfound.
    + now rewrite lookup_insert_ne.
  - destruct (decide (a = c)) as [->|Hne]; [now rewrite Hfound|reflexivity].
Qed.

Lemma lookup_zap_all g l usedBy usedBy' a :
  forEach (zapUsedBy g) l usedBy = Returns usedBy' →
  usedBy' !! a
  = if decide (a ∈ l) then (fun users => users ∖ {[g]}) <$> usedBy !! a else usedBy !! a.
Proof.
  revert usedBy. induction l as [|c l IH]; intros usedBy; cbn [forEach].
  - intros [= <-]. destruct (decide (a ∈ [])) as [H|_]; [inversion H|reflexivity].
  - destruct (zapUsedBy g usedBy c) as [usedBy1| |] eqn:Hzap; cbn [bindOutcome];
      try discriminate.
    intros Hrest. rewrite (IH _ Hrest), (lookup_zap _ _ _ _ a Hzap).
    destruct (decide (a = c)) as [->|Hne].
    + rewrite (decide_True (P := c ∈ c :: l)) by left.
      destruct (decide (c ∈ l)); [|reflexivity].
      destruct (usedBy !! c); [|reflexivity]. simpl. f_equal. set_solver.
    + destruct (decide (a ∈ l)) as [Hin|Hnin].
      * rewrite decide_True by now right. reflexivity.
      * rewrite decide_False; [reflexivity|]. intros H. apply elem_of_cons in H. tauto.
Qed.

Lemma lookup_add g usedBy usedBy' c a :
  addUsedBy g usedBy c = Returns usedBy' →
  usedBy' !! a
  = if decide (a = c) then Some (usersIn usedBy a ∪ {[g]}) else usedBy !! a.
Proof.
  unfold addUsedBy, usersIn.
  destruct (lookupKey usedBy c) as [found| |] eqn:Hfound; cbn [bindOutcome]; try discriminate.
  apply lookupKey_returns in Hfound. intros [= <-].
  destruct (decide (a = c)) as [->|Hne].
  - now rewrite lookup_insert_eq, Hfound.
  - now rewrite lookup_insert_ne.
Qed.

Lemma lookup_add_all g l usedBy usedBy' a :
  forEach (addUsedBy g) l usedBy = Returns usedBy' →
  usedBy' !! a
  = if decide (a ∈ l) then Some (usersIn usedBy a ∪ {[g]}) else usedBy !! a.
Proof.
  revert usedBy. induction l as [|c l IH]; intros usedBy; cbn [forEach].
  - intros [= <-]. destruct (decide (a ∈ [])) as [H|_]; [inversion H|reflexivity].
  - destruct (addUsedBy g usedBy c) as [usedBy1| |] eqn:Hadd; cbn [bindOutcome];
      try discriminate.
    intros Hrest. rewrite (IH _ Hrest). unfold usersIn at 1.
    rewrite (lookup_add _ _ _ _ a Hadd).
    destruct (decide (a = c)) as [->|Hne].
    + rewrite (decide_True (P := c ∈ c :: l)) by left.
      destruct (decide (c ∈ l)); [|reflexivity]. f_equal. set_solver.
    + destruct (decide (a ∈ l)) as [Hin|Hnin].
      * rewrite decide_True by now right. reflexivity.
      * rewrite decide_False; [reflexivity|]. intros H. apply elem_of_cons in H. tauto.
Qed.

(** The first loop removes [g] from the users of each former component. *)
Lemma usersIn_zap_all g l usedBy usedBy' a b :
  forEach (zapUsedBy g) l usedBy = Returns usedBy' →
  b ∈ usersIn usedBy' a ↔ b ∈ usersIn usedBy a ∧ ¬ (b = g ∧ a ∈ l).
Proof.
  intros Hzap. unfold usersIn. rewrite (lookup_zap_all _ _ _ _ a Hzap).
  destruct (decide (a ∈ l)) as [Hin|Hnin].
  - destruct (usedBy !! a) as [users|]; simpl; set_solver.
  - tauto.
Qed.

(** The second loop adds [g] to the users of each component. *)
Lemma usersIn_add_all g l usedBy usedBy' a b :
  forEach (addUsedBy g) l usedBy = Returns usedBy' →
  b ∈ usersIn usedBy' a ↔ b ∈ usersIn usedBy a ∨ (b = g ∧ a ∈ l).
Proof.
  intros Hadd. unfold usersIn at 1. rewrite (lookup_add_all _ _ _ _ a Hadd).
  destruct (decide (a ∈ l)) as [Hin|Hnin].
  - set_solver.
  - fold (usersIn usedBy a). tauto.
Qed.

(** The loops return when each name they look up is held by the map or is
    not an inherited one. *)
Lemma zap_all_returns g l usedBy :
  Forall (fun c => is_Some (usedBy !! c) ∨ inheritedName c = false) l →
  ∃ usedBy', forEach (zapUsedBy g) l usedBy = Returns usedBy'.
Proof.
  revert usedBy. induction l as [|c l IH]; intros usedBy Hl; cbn [forEach].
  - now eexists.
  - apply Forall_cons in Hl as [Hc Hl].
    assert (Hzap : ∃ usedBy1, zapUsedBy g usedBy c = Returns usedBy1).
    { unfold zapUsedBy. destruct Hc as [[users Hc]|Hc].
      - rewrite (lookupKey_own _ _ _ Hc). now eexists.
      - rewrite (lookupKey_modelled _ _ Hc). cbn [bindOutcome].
        destruct (usedBy !! c); now eexists. }
    destruct Hzap as [usedBy1 Hzap]. rewrite Hzap. cbn [bindOutcome].
    apply IH. eapply Forall_impl; [exact Hl|].
    intros c' [Hc'|Hc']; [left|now right].
    rewrite (lookup_zap _ _ _ _ c' Hzap).
    destruct (decide (c' = c)); [|exact Hc'].
    destruct Hc' as [users ->]. now eexists.
Qed.

Lemma add_all_returns g l usedBy :
  Forall (fun c => is_Some (usedBy !! c) ∨ inheritedName c = false) l →
  ∃ usedBy', forEach (addUsedBy g) l usedBy = Returns usedBy'.
Proof.
  revert usedBy. induction l as [|c l IH]; intros usedBy Hl; cbn [forEach].
  - now eexists.
  - apply Forall_cons in Hl as [Hc Hl].
    assert (Hadd : ∃ usedBy1, addUsedBy g usedBy c = Returns usedBy1).
    { unfold addUsedBy. destruct Hc as [[users Hc]|Hc].
      - rewrite (lookupKey_own _ _ _ Hc). now eexists.
      - rewrite (lookupKey_modelled _ _ Hc). now eexists. }
    destruct Hadd as [usedBy1 Hadd]. rewrite Hadd. cbn [bindOutcome].
    apply IH. eapply Forall_impl; [exact Hl|].
    intros c' [Hc'|Hc']; [left|now right].
    rewrite (lookup_add _ _ _ _ c' Hadd).
    destruct (decide (c' = c)); [now eexists|exact Hc'].
Qed.

Lemma componentsIn_update (madeOf : gmap string (list string)) g l b :
  componentsIn (<[g := l]> madeOf) b = if decide (g = b) then l else componentsIn madeOf b.
Proof.
  unfold componentsIn. destruct (decide (g = b)) as [->|Hne].
  - now rewrite lookup_insert_eq.
  - now rewrite lookup_insert_ne.
Qed.

Lemma transpose_initially : isTranspose newFontController.
Proof. intros a b. unfold usersIn, componentsIn; simpl. rewrite !lookup_empty. set_solver. Qed.
End Dependencies.

(** What an update that returns has done: the two loops ran on the former
    and on the new component list, and the glyph's entry was replaced. *)
Lemma update_returned (fc fc' : FontController) (glyph : GlyphController) :
  updateGlyphDependencies fc glyph = Returns fc' →
  ∃ usedBy1,
    forEach (zapUsedBy (name glyph)) (componentsIn (glyphMadeOf fc) (name glyph))
            (glyphUsedBy fc) = Returns usedBy1 ∧
    forEach (addUsedBy (name glyph)) (getAllComponentNames glyph) usedBy1
    = Returns (glyphUsedBy fc') ∧
    glyphMadeOf fc' = <[name glyph := getAllComponentNames glyph]> (glyphMadeOf fc) ∧
    undoStacks fc' = undoStacks fc ∧
    calls fc' = calls fc.
Proof.
  unfold updateGlyphDependencies, componentsIn.
  destruct (lookupKey (glyphMadeOf fc) (name glyph)) as [former| |] eqn:Hformer;
    cbn [bindOutcome]; try discriminate.
  apply lookupKey_returns in Hformer. rewrite Hformer.
  destruct (forEach (zapUsedBy (name glyph)) _ (glyphUsedBy fc)) as [usedBy1| |];
    cbn [bindOutcome]; try discriminate.
  destruct (forEach (addUsedBy (name glyph)) _ usedBy1) as [usedBy2| |] eqn:Hadd;
    cbn [bindOutcome]; try discriminate.
  intros [= <-]. exists usedBy1. split; [reflexivity|]. split; [exact Hadd|].
  repeat split.
Qed.

(** An update returns when the glyph's name and those of its components are
    names a map can hold or lacks without inheriting them; the former
    components need no such condition where the maps are transposed, since
    [glyphUsedBy] holds each of them. *)
Lemma update_returns (fc : FontController) (glyph : GlyphController) :
  isTranspose fc →
  inheritedName (name glyph) = false →
  Forall (fun c => inheritedName c = false) (getAllComponentNames glyph) →
  ∃ fc', updateGlyphDependencies fc glyph = Returns fc'.
Proof.
  intros Hfc Hname Hnames. unfold updateGlyphDependencies.
  rewrite (lookupKey_modelled _ _ Hname). cbn [bindOutcome].
  fold (componentsIn (glyphMadeOf fc) (name glyph)).
  destruct (zap_all_returns (name glyph) (componentsIn (glyphMadeOf fc) (name glyph))
                            (glyphUsedBy fc)) as [usedBy1 Hzap].
  { apply Forall_forall. intros c Hc. left.
    apply (Hfc c (name glyph)) in Hc. unfold usersIn in Hc.
    destruct (glyphUsedBy fc !! c); [now eexists|set_solver]. }
  rewrite Hzap. cbn [bindOutcome].
  destruct (add_all_returns (name glyph) (getAllComponentNames glyph) usedBy1)
    as [usedBy2 Hadd].
  { eapply Forall_impl; [exact Hnames|]. intros c Hc. now right. }
  rewrite Hadd. cbn [bindOutcome]. now eexists.
Qed.

(** One update keeps the maps transposed. *)
Lemma update_keeps_transpose (fc fc' : FontController) (glyph : GlyphController) :
  isTranspose fc → updateGlyphDependencies fc glyph = Returns fc' → isTranspose fc'.
Proof.
  intros Hfc Hupdated a b.
  destruct (update_returned _ _ _ Hupdated) as (usedBy1 & Hzap & Hadd & Hmade & _).
  rewrite (usersIn_add_all _ _ _ _ a b Hadd), (usersIn_zap_all _ _ _ _ a b Hzap).
  rewrite Hmade, componentsIn_update.
  specialize (Hfc a b).
  destruct (decide (name glyph = b)) as [<-|Hne]; [tauto|].
  split.
  - intros [[H _]|[-> _]]; [tauto|done].
  - intros H. left. split; [tauto|]. intros [-> _]. done.
Qed.

(** The invariant holds after any sequence of dependency updates on a new
    controller, for glyphs and components whose names are not inherited
    ones. *)
Lemma dependencies_transposed_always (glyphs : list GlyphController) :
  Forall (fun glyph => inheritedName (name glyph) = false ∧
                       Forall (fun c => inheritedName c = false)
                              (getAllComponentNames glyph)) glyphs →
  ∃ fc, forEach updateGlyphDependencies glyphs newFontController = Returns fc ∧
        isTranspose fc.
Proof.
  assert (H : ∀ fc0, isTranspose fc0 →
            Forall (fun glyph => inheritedName (name glyph) = false ∧
                                 Forall (fun c => inheritedName c = false)
                                        (getAllComponentNames glyph)) glyphs →
            ∃ fc, forEach updateGlyphDependencies glyphs fc0 = Returns fc ∧ isTranspose fc).
  { induction glyphs as [|g gs IH]; intros fc0 Hfc0 Hall; cbn [forEach].
    - now exists fc0.
    - apply Forall_cons in Hall as [[Hname Hnames] Hall].
      destruct (update_returns fc0 g Hfc0 Hname Hnames) as [fc1 Hfc1].
      rewrite Hfc1. cbn [bindOutcome].
      apply IH; [|exact Hall]. exact (update_keeps_transpose _ _ _ Hfc0 Hfc1). }
  apply H, transpose_initially.
Qed.



(** ** Consolidation *)

Section Unnesting.
Implicit Types (ch child : change) (children : list change).

Lemma pathField_not_empty (q : path) : pathField q ≠ Some [].
Proof. destruct q; discriminate. Qed.

Lemma pathField_orEmpty (p : option path) : p ≠ Some [] → pathField (orEmpty p) = p.
Proof. destruct p as [[|s q]|]; simpl; congruence. Qed.

(** The path of a node does not matter for its shape, unless the node is
    [{}]. *)
Lemma unnested_repath p p' f a c :
  unnested (Change p f a c) = true → isNotEmpty (Change p f a c) = true →
  unnested (Change p' f a c) = true.
Proof.
  destruct c as [children|]; simpl; [tauto|].
  unfold hasFunction; simpl. intros H Hne.
  destruct p, f, a; simpl in *; try discriminate; try assumption;
    destruct p'; simpl; rewrite ?orb_true_r; try reflexivity;
    destruct (negb (String.eqb s "")); simpl in *; congruence.
Qed.

Lemma surviving_children children :
  Forall (fun x => unnested (unnestSingleChildren x) = true) children →
  forallb (fun child => unnested child && isNotEmpty child)
          (List.filter isNotEmpty (List.map unnestSingleChildren children)) = true.
Proof.
  induction 1 as [|x l Hx _ IH]; simpl; [reflexivity|].
  destruct (isNotEmpty (unnestSingleChildren x)) eqn:Hne; [|exact IH].
  simpl. now rewrite Hx, Hne, IH.
Qed.

(** What [unnestSingleChildren] returns has the shape [unnested]. *)
Lemma unnest_unnested ch : unnested (unnestSingleChildren ch) = true.
Proof.
  induction ch as [p f a|p f a children IH] using change_children_ind.
  - simpl. destruct (hasFunction (Change p f a None)) eqn:Hf; simpl.
    + now rewrite Hf.
    + reflexivity.
  - apply surviving_children in IH. simpl.
    destruct (List.filter isNotEmpty (List.map unnestSingleChildren children))
      as [|k1 [|k2 rest]] eqn:Hkids.
    + destruct (hasFunction (Change p f a (Some children))) eqn:Hf; [|reflexivity].
      simpl. unfold hasFunction in *. simpl in *. now rewrite Hf.
    + simpl in IH. rewrite andb_true_r in IH. apply andb_true_iff in IH as [Hk Hne].
      destruct k1 as [kp kf ka kc]. eapply unnested_repath; eassumption.
    + simpl. exact IH.
Qed.

(** On a change of this shape [unnestSingleChildren] changes nothing. *)
Lemma unnested_fixed ch : unnested ch = true → unnestSingleChildren ch = ch.
Proof.
  induction ch as [p f a|p f a children IH] using change_children_ind; intros H.
  - simpl in *. destruct (hasFunction (Change p f a None)) eqn:Hf; [reflexivity|].
    simpl in H. destruct p, f, a; simpl in H; try discriminate. reflexivity.
  - simpl in H. apply andb_true_iff in H as [Hlen Hall].
    assert (Hsame : List.filter isNotEmpty (List.map unnestSingleChildren children)
                    = children).
    { clear Hlen. induction IH as [|x l Hx _ IHl]; [reflexivity|].
      simpl in Hall. apply andb_true_iff in Hall as [Hx' Hl].
      apply andb_true_iff in Hx' as [Hux Hne].
      simpl. rewrite (Hx Hux), Hne. f_equal. now apply IHl. }
    simpl. rewrite Hsame.
    destruct children as [|k1 [|k2 rest]]; simpl in Hlen; try discriminate.
    reflexivity.
Qed.

Lemma unnest_idempotent ch :
  unnestSingleChildren (unnestSingleChildren ch) = unnestSingleChildren ch.
Proof. apply unnested_fixed, unnest_unnested. Qed.

(** [unnestSingleChildren] does not bring back an empty path. *)
Lemma unnest_keeps_path_field ch :
  ch_p ch ≠ Some [] → ch_p (unnestSingleChildren ch) ≠ Some [].
Proof.
  destruct ch as [p f a [children|]]; simpl; intros Hp.
  - destruct (List.filter isNotEmpty (List.map unnestSingleChildren children))
      as [|k1 [|k2 rest]]; simpl.
    + destruct (hasFunction _); simpl; [assumption|discriminate].
    + apply pathField_not_empty.
    + assumption.
  - destruct (hasFunction _); simpl; [assumption|discriminate].
Qed.

(** A consolidated change, given back as the only raw change, is wrapped
    into itself. *)
Lemma wrap_consolidated (x : change) :
  wrapChanges [consolidateChanges [x] None] = consolidateChanges [x] None.
Proof.
  unfold consolidateChanges.
  set (r := unnestSingleChildren (wrapChanges [x])).
  assert (Hp : ch_p r ≠ Some []).
  { apply unnest_keeps_path_field. simpl. apply pathField_not_empty. }
  destruct r as [p f a c]. simpl in *. now rewrite pathField_orEmpty.
Qed.
End Unnesting.

(** C7.  For a single raw change [x] with a non-empty function name,
    consolidating [[x]] and consolidating the result once more give the
    same change. *)
Theorem consolidate_single_idempotent (x : change) (Hf : hasFunction x = true) :
  consolidateChanges [x] None = consolidateChanges [consolidateChanges [x] None] None.
Proof.
  symmetry. unfold consolidateChanges at 1. rewrite wrap_consolidated.
  unfold consolidateChanges. apply unnest_idempotent.
Qed.

Lemma consolidate_single_idempotent_witness :
  consolidateChanges
    [Change (Some [Key "glyphs"; Key "A"]) (Some "=") (Some [VStr "xAdvance"; VNum 600])
            (Some [Change (Some []) None None None])] None
  = Change (Some [Key "glyphs"; Key "A"]) (Some "=") (Some [VStr "xAdvance"; VNum 600]) None
  ∧ consolidateChanges
      [Change (Some [Key "glyphs"; Key "A"]) (Some "=") (Some [VStr "xAdvance"; VNum 600])
              (Some [Change (Some []) None None None])] None
    = consolidateChanges
        [consolidateChanges
           [Change (Some [Key "glyphs"; Key "A"]) (Some "=")
                   (Some [VStr "xAdvance"; VNum 600])
                   (Some [Change (Some []) None None None])] None] None.
Proof.
  split; [reflexivity|].
  apply consolidate_single_idempotent. reflexivity.
Defined.

Section CommonPrefix.
Implicit Types (first q r : path) (others : list path) (index : nat).


Lemma no_mismatch others index (e : segment) :
  existsb (fun q => strictNe (q !! index) (Some e)) others = false ↔
  ∀ q, q ∈ others → q !! index = Some e.
Proof.
  induction others as [|q0 others IH]; simpl.
  - split; [|reflexivity]. intros _ q Hq. inversion Hq.
  - rewrite orb_false_iff, IH. unfold strictNe. rewrite negb_false_iff, bool_decide_eq_true.
    split.
    + intros [H0 H] q Hq. apply elem_of_cons in Hq as [->|Hq]; auto.
    + intros H. split; [apply H; left|intros q Hq; apply H; now right].
Qed.

(** What the loop returns is a prefix of every path (read from [index]
    on). *)
Lemma loop_is_common_prefix first others index :
  commonPrefixLoop first others index `prefix_of` first ∧
  ∀ q, q ∈ others → commonPrefixLoop first others index `prefix_of` drop index q.
Proof.
  revert index. induction first as [|e rest IH]; intros index; simpl.
  - split; [done|]. intros q _. apply prefix_nil.
  - destruct (truthy e); simpl; [|split; [|intros q _]; apply prefix_nil].
    destruct (existsb _ others) eqn:Hmis; [split; [|intros q _]; apply prefix_nil|].
    rewrite no_mismatch in Hmis. destruct (IH (S index)) as [IH1 IH2].
    split; [now apply prefix_cons|].
    intros q Hq. rewrite (drop_S _ _ _ (Hmis q Hq)). apply prefix_cons. now apply IH2.
Qed.



Lemma findCommonPrefix_is_common (changes : list change) (ch : change) :
  ch ∈ changes → findCommonPrefix changes `prefix_of` pathOf ch.
Proof.
  destruct changes as [|c0 others]; [intros H; inversion H|].
  unfold findCommonPrefix. destruct (existsb lacksPath (c0 :: others)); [intros _; apply prefix_nil|].
  destruct (loop_is_common_prefix (orEmpty (ch_p c0))
              (List.map (fun ch => orEmpty (ch_p ch)) others) 0) as [H0 Hothers].
  intros Hin. apply elem_of_cons in Hin as [->|Hin]; [exact H0|].
  apply (Hothers (pathOf ch)). apply list_elem_of_fmap. now exists ch.
Qed.


Lemma zap_is_strip_none (ch : change) : zapEmptyPath ch = stripPrefix 0 ch.
Proof. destruct ch as [[[|s q]|] f a c]; reflexivity. Qed.

Lemma wrap_several (changes : list change) :
  (2 ≤ length changes)%nat →
  wrapChanges changes
  = Change (pathField (findCommonPrefix changes)) None None
           (Some (List.map (stripPrefix (length (findCommonPrefix changes))) changes)).
Proof.
  intros Hlen. destruct changes as [|c0 [|c1 rest]]; simpl in Hlen; try lia.
  unfold wrapChanges.
  destruct (findCommonPrefix (c0 :: c1 :: rest)) as [|s cp]; simpl length; cbv iota beta.
  - simpl pathField. do 2 f_equal. apply map_ext. intros ch. apply zap_is_strip_none.
  - reflexivity.
Qed.
End CommonPrefix.





(** [findCommonPrefix] tests [!pathElement]: an index [0] (or an empty key)
    ends the common prefix although all paths agree on it. *)
Lemma findCommonPrefix_stops_at_falsy_segment :
  findCommonPrefix [Change (Some [Key "contours"; Index 0; Key "x"]) (Some "=") None None;
                    Change (Some [Key "contours"; Index 0; Key "y"]) (Some "=") None None]
  = [Key "contours"] ∧
  findCommonPrefix [Change (Some [Key "contours"; Index 1; Key "x"]) (Some "=") None None;
                    Change (Some [Key "contours"; Index 1; Key "y"]) (Some "=") None None]
  = [Key "contours"; Index 1].
Proof. split; reflexivity. Qed.

(** ** Applying a change *)

Section Descent.
Implicit Types (root subject v : value) (p full rest : path) (k : nat).





(** [applyChange] is the descent, then the function, then the children
    one after the other, all on the resolved subject. *)
Lemma applyChange_unfold root (ch : change) :
  applyChange root ch =
  let* resolved := descend (pathOf ch) root in
  let* resolved1 := callChangeFunction (ch_f ch) (orEmpty (ch_a ch)) resolved in
  let* resolved2 := applyChildren (orEmpty (ch_c ch)) resolved1 in
  Returns (replaceAt (pathOf ch) root resolved2).
Proof. destruct ch as [p f a [children|]]; reflexivity. Qed.
End Descent.





(** ** The glyph edit context *)

(** A non-droppable incremental change clears the timer the context
    remembers before it is sent. *)
Lemma editIncremental_clears_pending (ctx : GlyphEditContext) (ch : change) (now : Z) (id : nat) :
  _throttledEditIncrementalTimeoutID ctx = Some id →
  List.find (fun t => Nat.eqb (fst t) id) (timers (editIncremental ctx ch false now)) = None.
Proof.
  intros Hid. unfold editIncremental; simpl. rewrite Hid. simpl.
  induction (timers ctx) as [|[i c] ts IH]; simpl; [reflexivity|].
  destruct (Nat.eqb i id) eqn:Hi; simpl; [exact IH|]. now rewrite Hi.
Qed.

(** C4 fails on the code.  [editFinal] does not touch the timers: a
    throttled send that is pending before the final commit is pending after
    it.  In the drag session the second incremental change is waiting in a
    timer when [editFinal] is called; the final commit goes out, the timer
    runs afterwards and the older incremental change reaches the remote
    font after the final one. *)
Theorem final_commit_leaves_throttled_send_pending
        (ctx : GlyphEditContext) (ch rollback : change)
        (undoInfo : list (string * value)) (broadcast : bool) :
  timers (editFinal ctx ch rollback undoInfo broadcast) = timers ctx ∧
  timers (runSession (newGlyphEditContext "A" [Key "glyphs"; Key "A"]) dragSession)
  = [(1%nat, sentMovePoint 20)] ∧
  List.filter isFontCall
    (sent (runSession (newGlyphEditContext "A" [Key "glyphs"; Key "A"])
                      (dragSession ++ [TimerFires 1])))
  = [FontEditIncremental (sentMovePoint 10);
     FontEditFinal (sentMovePoint 30) (sentMovePoint 0) (VStr "move point") true;
     FontEditIncremental (sentMovePoint 20)].
Proof.
  split; [|split; reflexivity].
  unfold editFinal. destruct broadcast; reflexivity.
Qed.

(** * Further properties *)

(** ** The unnesting pass *)

(** X1.  [unnestSingleChildren] is idempotent: a second pass changes
    nothing. *)
Theorem unnestSingleChildren_idempotent (ch : change) :
  unnestSingleChildren (unnestSingleChildren ch) = unnestSingleChildren ch.
Proof. apply unnested_fixed, unnest_unnested. Qed.

Lemma unnested_has_function_or_children (ch : change) :
  unnested ch = true → isNotEmpty ch = true →
  ∀ p, isNotEmpty (Change p (ch_f ch) (ch_a ch) (ch_c ch)) = true.
Proof.
  destruct ch as [p f a [children|]]; simpl; intros H Hne p'.
  - now destruct p', f, a.
  - unfold hasFunction in H; simpl in H.
    destruct f; [now destruct p'|]. simpl in H. destruct p, a; discriminate.
Qed.

Lemma survivors_none (children : list change) :
  Forall (fun x => isNotEmpty (unnestSingleChildren x) = anyFunction x) children →
  List.filter isNotEmpty (List.map unnestSingleChildren children)
  = List.map unnestSingleChildren (List.filter anyFunction children).
Proof.
  induction 1 as [|x l Hx _ IH]; simpl; [reflexivity|].
  rewrite Hx. destruct (anyFunction x); simpl; now rewrite IH.
Qed.

Lemma survivors_exist (children : list change) :
  existsb anyFunction children
  = negb (Nat.eqb (length (List.filter anyFunction children)) 0).
Proof.
  induction children as [|x l IH]; simpl; [reflexivity|].
  destruct (anyFunction x); simpl; [reflexivity|exact IH].
Qed.

(** [unnestSingleChildren] on a node with a [c] key, by the number of
    children left. *)
Lemma unnest_node (p : option path) (f : option string) (a : option (list value))
      (children : list change) :
  unnestSingleChildren (Change p f a (Some children))
  = let kids := List.filter isNotEmpty (List.map unnestSingleChildren children) in
    match kids with
    | [] => if hasFunction (Change p f a (Some children))
            then Change p f a None else emptyChange
    | [child] =>
      Change (pathField (match p with
                         | Some ((_ :: _) as q) => q ++ orEmpty (ch_p child)
                         | _ => orEmpty (ch_p child)
                         end))
             (ch_f child) (ch_a child) (ch_c child)
    | _ :: _ :: _ => Change p f a (Some kids)
    end.
Proof. reflexivity. Qed.

Lemma unnest_nonempty_iff_function (ch : change) :
  isNotEmpty (unnestSingleChildren ch) = anyFunction ch.
Proof.
  induction ch as [p f a|p f a children IH] using change_children_ind.
  - simpl. rewrite orb_false_r.
    destruct (hasFunction (Change p f a None)) eqn:Hf; [|reflexivity].
    unfold hasFunction in Hf; simpl in Hf. destruct f; [|discriminate]. now destruct p.
  - pose proof (survivors_none children IH) as Hkids.
    assert (Hshape : Forall (fun k => unnested k = true ∧ isNotEmpty k = true)
                            (List.filter isNotEmpty (List.map unnestSingleChildren children))).
    { apply Forall_forall. intros k Hk. apply list_elem_of_In, filter_In in Hk as [Hk Hne].
      split; [|exact Hne]. apply in_map_iff in Hk as [x [<- _]]. apply unnest_unnested. }
    cbn [anyFunction]. rewrite survivors_exist, unnest_node. cbv zeta.
    assert (Hlen : length (List.filter anyFunction children)
                   = length (List.filter isNotEmpty (List.map unnestSingleChildren children)))
      by (rewrite Hkids; now rewrite length_map).
    rewrite Hlen.
    destruct (List.filter isNotEmpty (List.map unnestSingleChildren children))
      as [|k1 [|k2 rest]]; simpl.
    + rewrite orb_false_r.
      destruct (hasFunction (Change p f a (Some children))) eqn:Hf; [|reflexivity].
      unfold hasFunction in Hf; simpl in Hf. destruct f; [|discriminate]. now destruct p.
    + rewrite orb_true_r. apply Forall_cons in Hshape as [[Hu Hne] _].
      now apply unnested_has_function_or_children.
    + rewrite orb_true_r. now destruct p, f, a.
Qed.

(** X2.  [unnestSingleChildren] returns [{}] exactly for the changes in
    which no node carries a (non-empty) function name. *)
Theorem unnest_prunes_exactly_functionless (ch : change) :
  unnestSingleChildren ch = emptyChange ↔ anyFunction ch = false.
Proof.
  rewrite <- unnest_nonempty_iff_function. split.
  - intros ->. reflexivity.
  - destruct (unnestSingleChildren ch) as [[q|] [n|] [l|] [l'|]]; simpl;
      intros H; try discriminate H. reflexivity.
Qed.

(** ** Paths into a document *)

Section PathLenses.
Implicit Types (root subject child s r : value) (e : segment) (p pre rest full : path).

Lemma bindOutcome_returns {A B : Type} (o : outcome A) (k : A → outcome B) (y : B) :
  bindOutcome o k = Returns y ↔ ∃ x, o = Returns x ∧ k x = Returns y.
Proof.
  destruct o as [x|e|]; simpl; split; try discriminate; try (intros [x' [H _]]; discriminate H).
  - intros H. now exists x.
  - intros [x' [H Hk]]. now injection H as ->.
Qed.

Lemma assocSet_same (k : string) (v : value) (fields : list (string * value)) :
  assocGet k fields = Some v → assocSet k v fields = fields.
Proof.
  induction fields as [|[k' v'] fields IH]; simpl; [discriminate|].
  destruct (String.eqb k k') eqn:Hk.
  - intros H. now injection H as ->.
  - intros H. now rewrite IH.
Qed.

(** Putting back what was read changes nothing. *)
Lemma withChild_same root e child :
  getProperty root e = Returns child → child ≠ VUndefined → withChild root e child = root.
Proof.
  destruct root as [| | | | |items|fields]; simpl; try reflexivity.
  - destruct (arrayIndex e) as [n|]; [|reflexivity].
    intros H _. injection H as <-. f_equal. rewrite nth_lookup.
    destruct (items !! n) as [x|] eqn:Hn; simpl.
    + now apply list_insert_id.
    + apply list_insert_ge. now apply lookup_ge_None.
  - destruct (assocGet (propertyKey e) fields) as [v|] eqn:Hget.
    + intros H _. injection H as <-. f_equal. now apply assocSet_same.
    + destruct (inheritedName (propertyKey e)); [discriminate|].
      intros H Hne. injection H as <-. congruence.
Qed.

Lemma descendFrom_step full e rest root s :
  descendFrom full (e :: rest) root = Returns s ↔
  ∃ child, getProperty root e = Returns child ∧ child ≠ VUndefined ∧
           descendFrom full rest child = Returns s.
Proof.
  simpl. rewrite bindOutcome_returns. split.
  - intros [child [Hget Hrest]]. exists child. split; [exact Hget|].
    destruct child; try discriminate Hrest; (split; [discriminate|exact Hrest]).
  - intros [child [Hget [Hne Hrest]]]. exists child. split; [exact Hget|].
    destruct child; congruence.
Qed.

(** The path reported in the error does not matter for a descent that
    returns. *)
Lemma descendFrom_returns full full' rest root s :
  descendFrom full rest root = Returns s → descendFrom full' rest root = Returns s.
Proof.
  revert root. induction rest as [|e rest IH]; intros root; [exact id|].
  rewrite !descendFrom_step. intros [child [Hget [Hne Hrest]]].
  exists child. auto.
Qed.

Lemma descend_app pre p root r :
  descend (pre ++ p) root = Returns r ↔
  ∃ s, descend pre root = Returns s ∧ descend p s = Returns r.
Proof.
  unfold descend. generalize (pre ++ p) at 1 as full. generalize pre at 2 as full'.
  revert root. induction pre as [|e pre IH]; intros root full' full; simpl app.
  - split.
    + intros H. exists root. split; [reflexivity|]. eapply descendFrom_returns, H.
    + intros [s [Hs Hr]]. injection Hs as <-. eapply descendFrom_returns, Hr.
  - rewrite descendFrom_step. split.
    + intros [child [Hget [Hne Hrest]]]. apply IH with (full' := full') in Hrest as [s [Hs Hr]].
      exists s. split; [|exact Hr]. apply descendFrom_step. exists child. auto.
    + intros [s [Hs Hr]]. apply descendFrom_step in Hs as [child [Hget [Hne Hrest]]].
      exists child. split; [exact Hget|]. split; [exact Hne|].
      apply (IH child full' full). now exists s.
Qed.

Lemma replaceAt_app pre p root s x :
  descend pre root = Returns s →
  replaceAt (pre ++ p) root x = replaceAt pre root (replaceAt p s x).
Proof.
  unfold descend. generalize pre at 1 as full.
  revert root. induction pre as [|e pre IH]; intros root full.
  - intros H. now injection H as ->.
  - rewrite descendFrom_step. intros [child [Hget [Hne Hrest]]].
    simpl. rewrite Hget. f_equal. eapply IH, Hrest.
Qed.

(** Writing back the subject a path leads to gives the document back. *)
Lemma replaceAt_same p root s :
  descend p root = Returns s → replaceAt p root s = root.
Proof.
  unfold descend. generalize p at 1 as full.
  revert root. induction p as [|e p IH]; intros root full.
  - intros H. now injection H as ->.
  - rewrite descendFrom_step. intros [child [Hget [Hne Hrest]]].
    simpl. rewrite Hget, (IH _ _ Hrest). now apply withChild_same.
Qed.

(** Only the path [p || []] of a node matters when it is applied. *)
Lemma applyChange_same_path root (p p' : option path) f a c :
  orEmpty p = orEmpty p' →
  applyChange root (Change p f a c) = applyChange root (Change p' f a c).
Proof. intros H. rewrite !applyChange_unfold. unfold pathOf; simpl. now rewrite H. Qed.

Lemma orEmpty_pathField p : orEmpty (pathField p) = p.
Proof. now destruct p. Qed.

(** A node whose path is [pre ++ p] acts at [pre] like the node with path
    [p]. *)
Lemma applyChange_path_app root pre p f a c r :
  applyChange root (Change (Some (pre ++ p)) f a c) = Returns r ↔
  ∃ s s', descend pre root = Returns s ∧
          applyChange s (Change (Some p) f a c) = Returns s' ∧
          r = replaceAt pre root s'.
Proof.
  rewrite applyChange_unfold. unfold pathOf; cbn [ch_p ch_f ch_a ch_c orEmpty]. cbv zeta.
  rewrite bindOutcome_returns. split.
  - intros [t [Ht Hrest]]. apply descend_app in Ht as [s [Hs Ht]].
    apply bindOutcome_returns in Hrest as [t1 [Hcall Hrest]].
    apply bindOutcome_returns in Hrest as [t2 [Hkids Hr]]. injection Hr as <-.
    exists s, (replaceAt p s t2). split; [exact Hs|]. split; [|now apply replaceAt_app].
    rewrite applyChange_unfold. unfold pathOf; cbn [ch_p ch_f ch_a ch_c orEmpty]. cbv zeta.
    now rewrite Ht; simpl; rewrite Hcall; simpl; rewrite Hkids.
  - intros [s [s' [Hs [Happ ->]]]].
    rewrite applyChange_unfold in Happ. unfold pathOf in Happ;
      cbn [ch_p ch_f ch_a ch_c orEmpty] in Happ.
    apply bindOutcome_returns in Happ as [t [Ht Hrest]].
    apply bindOutcome_returns in Hrest as [t1 [Hcall Hrest]].
    apply bindOutcome_returns in Hrest as [t2 [Hkids Hr]]. injection Hr as <-.
    exists t. split; [apply descend_app; now exists s|].
    rewrite Hcall; simpl. rewrite Hkids; simpl. f_equal. now apply replaceAt_app.
Qed.
End PathLenses.

(** ** What unnesting and prefixing do to the effect of a change *)

Lemma callChangeFunction_without_function (f : option string) (args : list value)
      (s : value) p a c :
  hasFunction (Change p f a c) = false → callChangeFunction f args s = Returns s.
Proof.
  unfold hasFunction, callChangeFunction; simpl. destruct f as [n|]; [|reflexivity].
  destruct (String.eqb n ""); [reflexivity|discriminate].
Qed.

Lemma applyChildren_keep (children : list change) (s s2 : value) :
  Forall (fun x => ∀ root r, applyChange root x = Returns r → r = root) children →
  applyChildren children s = Returns s2 → s2 = s.
Proof.
  intros Hall. revert s. induction Hall as [|x l Hx _ IH]; intros s; simpl.
  - intros H. now injection H.
  - intros H. apply bindOutcome_returns in H as [s' [Hx' Hrest]].
    apply Hx in Hx' as ->. now apply IH.
Qed.

Lemma functionless_keeps (ch : change) :
  anyFunction ch = false → ∀ root r, applyChange root ch = Returns r → r = root.
Proof.
  induction ch as [p f a|p f a children IH] using change_children_ind;
    cbn [anyFunction]; intros Hno root r; apply orb_false_iff in Hno as [Hf Hkids];
    rewrite applyChange_unfold; unfold pathOf; cbn [ch_p ch_f ch_a ch_c orEmpty]; cbv zeta;
    intros H; apply bindOutcome_returns in H as [s [Hs H]];
    rewrite (callChangeFunction_without_function _ _ _ _ _ _ Hf) in H; simpl in H.
  - injection H as <-. now apply replaceAt_same.
  - apply bindOutcome_returns in H as [s2 [Hs2 H]]. injection H as <-.
    assert (s2 = s) as ->.
    { apply (applyChildren_keep children); [|exact Hs2].
      apply Forall_forall. intros x Hx. rewrite Forall_forall in IH. apply IH; [exact Hx|].
      apply not_true_is_false. intros Hany.
      assert (existsb anyFunction children = true); [|congruence].
      apply existsb_exists. exists x. split; [now apply list_elem_of_In|exact Hany]. }
    now apply replaceAt_same.
Qed.

(** X3.  A change in which no node carries a function never modifies a
    document: when applying it returns, the document is the one it was
    given.  (It can still throw, on a path that does not resolve.) *)
Theorem functionless_change_keeps_document (ch : change) (root r : value)
        (Hno : anyFunction ch = false) (Hret : applyChange root ch = Returns r) :
  r = root.
Proof. exact (functionless_keeps ch Hno root r Hret). Qed.

Lemma functionless_change_keeps_document_witness :
  anyFunction inertChange = false ∧
  applyChange sampleDocument inertChange = Returns sampleDocument.
Proof.
  split; [reflexivity|].
  assert (H : ∃ r, applyChange sampleDocument inertChange = Returns r)
    by (eexists; reflexivity).
  destruct H as [r Hr]. rewrite Hr. f_equal.
  exact (functionless_change_keeps_document inertChange sampleDocument r eq_refl Hr).
Defined.

(** X4.  A base path given to [consolidateChanges] makes the change act on
    the object the base path leads to: applying the prefixed change to a
    document returns exactly when the base path resolves and applying the
    change consolidated without prefix to the object found there returns,
    and the new document is the old one with that object updated. *)
Theorem consolidated_prefix_acts_below (changes : list change) (pre : path)
        (root r : value) :
  applyChange root (consolidateChanges changes (Some pre)) = Returns r ↔
  ∃ s s', descend pre root = Returns s ∧
          applyChange s (consolidateChanges changes None) = Returns s' ∧
          r = replaceAt pre root s'.
Proof.
  destruct pre as [|e pre].
  - unfold consolidateChanges. split.
    + intros H. exists root, r. auto.
    + intros [s [s' [Hs [H ->]]]]. now injection Hs as <-.
  - unfold consolidateChanges, addPathPrefix.
    destruct (unnestSingleChildren (wrapChanges changes)) as [p f a c].
    cbn [ch_p ch_f ch_a ch_c]. rewrite applyChange_path_app.
    split; intros [s [s' [Hs [H ->]]]]; exists s, s'; (split; [exact Hs|]); (split; [|reflexivity]);
      rewrite <- H; apply applyChange_same_path; reflexivity.
Qed.

Lemma collapsed_path (p : option path) (childPath : path) :
  match p with
  | Some ((_ :: _) as q) => q ++ childPath
  | _ => childPath
  end = orEmpty p ++ childPath.
Proof. now destruct p as [[|e q]|]. Qed.

Lemma applyChildren_survivors (children : list change) (s s2 : value) :
  Forall (fun x => keepsOwnFunctions x = true →
                   ∀ root r, applyChange root x = Returns r →
                             applyChange root (unnestSingleChildren x) = Returns r)
         children →
  forallb keepsOwnFunctions children = true →
  applyChildren children s = Returns s2 →
  applyChildren (List.filter isNotEmpty (List.map unnestSingleChildren children)) s
  = Returns s2.
Proof.
  intros Hall. revert s. induction Hall as [|x l Hx _ IH]; intros s; [intros _ H; exact H|].
  cbn [forallb List.map List.filter applyChildren]. intros Hsafe H.
  apply andb_true_iff in Hsafe as [Hsx Hsl].
  apply bindOutcome_returns in H as [s' [Hx' Hrest]].
  destruct (isNotEmpty (unnestSingleChildren x)) eqn:Hne.
  - cbn [applyChildren]. rewrite (Hx Hsx _ _ Hx'). simpl. now apply IH.
  - rewrite unnest_nonempty_iff_function in Hne.
    rewrite (functionless_keeps x Hne _ _ Hx') in Hrest. now apply IH.
Qed.

Lemma unnest_keeps (ch : change) :
  keepsOwnFunctions ch = true →
  ∀ root r, applyChange root ch = Returns r →
            applyChange root (unnestSingleChildren ch) = Returns r.
Proof.
  induction ch as [p f a|p f a children IH] using change_children_ind;
    intros Hsafe root r Hret.
  - simpl. destruct (hasFunction (Change p f a None)) eqn:Hf; [exact Hret|].
    assert (Hno : anyFunction (Change p f a None) = false)
      by (cbn [anyFunction]; now rewrite Hf).
    now rewrite (functionless_keeps _ Hno _ _ Hret).
  - cbn [keepsOwnFunctions] in Hsafe. apply andb_true_iff in Hsafe as [Hown Hsafe].
    pose proof Hret as Hret'.
    rewrite applyChange_unfold in Hret'. unfold pathOf in Hret'.
    cbn [ch_p ch_f ch_a ch_c orEmpty] in Hret'. cbv zeta in Hret'.
    apply bindOutcome_returns in Hret' as [s [Hs H]].
    apply bindOutcome_returns in H as [s1 [Hcall H]].
    apply bindOutcome_returns in H as [s2 [Hkids H]]. injection H as <-.
    apply (applyChildren_survivors children s1 s2 IH Hsafe) in Hkids.
    assert (Hlen : length (List.filter anyFunction children)
                   = length (List.filter isNotEmpty (List.map unnestSingleChildren children))).
    { rewrite survivors_none, length_map; [reflexivity|].
      apply Forall_forall. intros x _. apply unnest_nonempty_iff_function. }
    rewrite unnest_node. cbv zeta. rewrite Hlen in Hown.
    destruct (List.filter isNotEmpty (List.map unnestSingleChildren children))
      as [|k1 [|k2 rest]] eqn:Hsurv.
    + simpl in Hkids. injection Hkids as <-.
      destruct (hasFunction (Change p f a (Some children))) eqn:Hf.
      * rewrite applyChange_unfold. unfold pathOf. cbn [ch_p ch_f ch_a ch_c orEmpty].
        cbv zeta. rewrite Hs; simpl. now rewrite Hcall.
      * rewrite (callChangeFunction_without_function _ _ _ _ _ _ Hf) in Hcall.
        injection Hcall as <-. now rewrite (replaceAt_same _ _ _ Hs).
    + simpl in Hown. rewrite orb_false_r in Hown. apply negb_true_iff in Hown.
      rewrite (callChangeFunction_without_function _ _ _ _ _ _ Hown) in Hcall.
      injection Hcall as <-.
      cbn [applyChildren] in Hkids. apply bindOutcome_returns in Hkids as [s' [Hk H]].
      simpl in H. injection H as <-.
      rewrite collapsed_path.
      rewrite (applyChange_same_path root _ (Some (orEmpty p ++ orEmpty (ch_p k1))))
        by apply orEmpty_pathField.
      apply applyChange_path_app. eexists s, _. split; [exact Hs|]. split; [|reflexivity].
      rewrite <- Hk. destruct k1 as [kp kf ka kc]. now apply applyChange_same_path.
    + rewrite applyChange_unfold. unfold pathOf. cbn [ch_p ch_f ch_a ch_c orEmpty].
      cbv zeta. rewrite Hs; cbn [bindOutcome]. rewrite Hcall; cbn [bindOutcome].
      now rewrite Hkids.
Qed.

(** X5.  The unnesting pass keeps the effect of a change in which no node
    has both a function of its own and exactly one child carrying a
    function: when applying the change returns a document, applying the
    unnested change returns the same document. *)
Theorem unnest_keeps_effect (ch : change) (root r : value)
        (Hsafe : keepsOwnFunctions ch = true)
        (Hret : applyChange root ch = Returns r) :
  applyChange root (unnestSingleChildren ch) = Returns r.
Proof. exact (unnest_keeps ch Hsafe root r Hret). Qed.

(** ** Hoisting a common prefix *)

Section Hoisting.
Implicit Types (root subject child s r t : value) (e : segment) (p cp rest : path).

Lemma assocGet_assocSet (k : string) (v : value) (fields : list (string * value)) :
  assocGet k (assocSet k v fields) = Some v.
Proof.
  induction fields as [|[k' v'] fields IH]; simpl.
  - now rewrite String.eqb_refl.
  - destruct (String.eqb k k') eqn:Hk; simpl; now rewrite Hk.
Qed.

Lemma assocSet_assocSet (k : string) (v w : value) (fields : list (string * value)) :
  assocSet k w (assocSet k v fields) = assocSet k w fields.
Proof.
  induction fields as [|[k' v'] fields IH]; simpl.
  - now rewrite String.eqb_refl.
  - destruct (String.eqb k k') eqn:Hk; simpl; rewrite Hk; [reflexivity|now rewrite IH].
Qed.

Lemma nth_defined_in_range (items : list value) (n : nat) :
  nth n items VUndefined ≠ VUndefined → (n < length items)%nat.
Proof.
  intros H. destruct (decide (n < length items)%nat) as [Hn|Hn]; [exact Hn|].
  rewrite nth_overflow in H by lia. congruence.
Qed.

(** The function of a node leaves a primitive subject as it is and an
    object or array an object or array. *)
Lemma callChangeFunction_kind (f : option string) (args : list value) s s1 :
  callChangeFunction f args s = Returns s1 →
  (isPrimitive s = true → s1 = s) ∧ (isPrimitive s = false → isPrimitive s1 = false).
Proof.
  unfold callChangeFunction, changeFunctions, assignKey, deleteKey, splice, callPathMethod.
  destruct f as [functionName|]; [|intros H; simplify_eq; auto].
  destruct (String.eqb functionName ""); [intros H; simplify_eq; auto|].
  repeat (match goal with
          | |- context [if ?b then _ else _] => destruct b
          end);
    try discriminate;
    destruct s; intros H; repeat case_match; simplify_eq;
      split; intros Hp; try discriminate Hp; reflexivity.
Qed.

Lemma getProperty_primitive subject e child :
  isPrimitive subject = true → getProperty subject e = Returns child →
  isPrimitive child = true.
Proof.
  destruct subject; simpl; try discriminate; intros _ H; repeat case_match;
    simplify_eq; reflexivity.
Qed.

Lemma descend_primitive p root s :
  isPrimitive root = true → descend p root = Returns s → isPrimitive s = true.
Proof.
  unfold descend. generalize p at 1 as full. revert root.
  induction p as [|e p IH]; intros root full Hroot.
  - intros H. now injection H as <-.
  - rewrite descendFrom_step. intros [child [Hget [_ Hrest]]].
    eapply IH; [|exact Hrest]. eapply getProperty_primitive; eassumption.
Qed.

Lemma withChild_kind root e child :
  isPrimitive (withChild root e child) = isPrimitive root.
Proof. destruct root; simpl; try reflexivity. now destruct (arrayIndex e). Qed.

Lemma replaceAt_kind p root t :
  p ≠ [] → isPrimitive (replaceAt p root t) = isPrimitive root.
Proof.
  destruct p as [|e p]; [congruence|]. intros _. simpl.
  destruct (getProperty root e); [apply withChild_kind|reflexivity|reflexivity].
Qed.

(** Applying a change to a primitive value can only give it back, and an
    object or array stays one. *)
Lemma applyChange_kind (ch : change) :
  ∀ s r, applyChange s ch = Returns r →
         (isPrimitive s = true → r = s) ∧ (isPrimitive s = false → isPrimitive r = false).
Proof.
  assert (Hkids : ∀ children,
             Forall (fun x => ∀ s r, applyChange s x = Returns r →
                                     (isPrimitive s = true → r = s) ∧
                                     (isPrimitive s = false → isPrimitive r = false))
                    children →
             ∀ s r, applyChildren children s = Returns r →
                    (isPrimitive s = true → r = s) ∧
                    (isPrimitive s = false → isPrimitive r = false)).
  { intros children Hall. induction Hall as [|x l Hx _ IH]; intros s r; simpl.
    - intros H. injection H as <-. auto.
    - intros H. apply bindOutcome_returns in H as [s' [Hx' Hrest]].
      destruct (Hx _ _ Hx') as [Hp Hn], (IH _ _ Hrest) as [Hp' Hn']. split.
      + intros Hs. rewrite <- (Hp Hs). apply Hp'. now rewrite (Hp Hs).
      + intros Hs. auto. }
  assert (Hnode : ∀ p f a children,
             (∀ s r, applyChildren children s = Returns r →
                     (isPrimitive s = true → r = s) ∧
                     (isPrimitive s = false → isPrimitive r = false)) →
             ∀ s r, (let* t := descend p s in
                     let* t1 := callChangeFunction f a t in
                     let* t2 := applyChildren children t1 in
                     Returns (replaceAt p s t2)) = Returns r →
                    (isPrimitive s = true → r = s) ∧
                    (isPrimitive s = false → isPrimitive r = false)).
  { intros p f a children Hc s r H.
    apply bindOutcome_returns in H as [t [Ht H]].
    apply bindOutcome_returns in H as [t1 [Hcall H]].
    apply bindOutcome_returns in H as [t2 [Hk H]]. injection H as <-.
    destruct (callChangeFunction_kind _ _ _ _ Hcall) as [Hp1 Hn1], (Hc _ _ Hk) as [Hp2 Hn2].
    split.
    - intros Hs. pose proof (descend_primitive _ _ _ Hs Ht) as Hprim.
      rewrite (Hp2 ltac:(now rewrite (Hp1 Hprim))), (Hp1 Hprim).
      now apply replaceAt_same.
    - intros Hs. destruct p as [|e p]; [|now rewrite replaceAt_kind].
      unfold descend in Ht. simpl in *. injection Ht as <-. auto. }
  induction ch as [p f a|p f a children IH] using change_children_ind; intros s r;
    rewrite applyChange_unfold; unfold pathOf; cbn [ch_p ch_f ch_a ch_c orEmpty]; cbv zeta.
  - apply Hnode. intros s' r' H. simpl in H. injection H as <-. auto.
  - apply Hnode. now apply Hkids.
Qed.

Lemma descend_defined p root s :
  p ≠ [] → descend p root = Returns s → s ≠ VUndefined.
Proof.
  unfold descend. generalize p at 2 as full. revert root.
  induction p as [|e p IH]; intros root full Hne; [congruence|].
  rewrite descendFrom_step. intros [child [Hget [Hchild Hrest]]].
  destruct p as [|e' p]; [injection Hrest as <-; exact Hchild|].
  eapply IH; [discriminate|exact Hrest].
Qed.

Lemma replaceAt_defined p root t :
  root ≠ VUndefined → t ≠ VUndefined → replaceAt p root t ≠ VUndefined.
Proof.
  intros Hroot Ht. destruct p as [|e p]; [exact Ht|]. simpl.
  destruct (getProperty root e); [|exact Hroot|exact Hroot].
  destruct root; simpl; try congruence. now destruct (arrayIndex e).
Qed.

(** After the object under a path has been replaced, the path leads to the
    new object (a primitive cannot be replaced by anything but itself). *)
Lemma descend_replaceAt p root s0 s1 :
  descend p root = Returns s0 →
  (isPrimitive s0 = true → s1 = s0) → s1 ≠ VUndefined →
  descend p (replaceAt p root s1) = Returns s1.
Proof.
  unfold descend. generalize p at 1 3 as full. revert root.
  induction p as [|e p IH]; intros root full Hs0 Hprim Hdef; [reflexivity|].
  pose proof Hs0 as Hs0'.
  apply descendFrom_step in Hs0 as [child [Hget [Hchild Hrest]]].
  assert (Hnew : replaceAt p child s1 ≠ VUndefined) by now apply replaceAt_defined.
  simpl replaceAt. rewrite Hget.
  destruct root as [| | | |str|items|fields]; try discriminate Hget.
  - (* a string: nothing below it can change *)
    simpl withChild.
    assert (isPrimitive s0 = true) as Hp.
    { eapply (descend_primitive p child); [|eapply descendFrom_returns, Hrest].
      eapply getProperty_primitive; [|exact Hget]. reflexivity. }
    now rewrite (Hprim Hp).
  - simpl in Hget. simpl withChild. destruct (arrayIndex e) as [n|] eqn:Hidx.
    + injection Hget as Hget. apply descendFrom_step.
      exists (replaceAt p child s1). split; [|split; [exact Hnew|now apply (IH child full)]].
      simpl. rewrite Hidx. f_equal. rewrite nth_lookup, list_lookup_insert_eq; [reflexivity|].
      apply nth_defined_in_range. now rewrite Hget.
    + assert (isPrimitive s0 = true) as Hp.
      { eapply (descend_primitive p child); [|eapply descendFrom_returns, Hrest].
        destruct (String.eqb (propertyKey e) "length"); [|discriminate Hget].
        now injection Hget as <-. }
      now rewrite (Hprim Hp).
  - simpl withChild. apply descendFrom_step.
    exists (replaceAt p child s1). split; [|split; [exact Hnew|now apply (IH child full)]].
    simpl. now rewrite assocGet_assocSet.
Qed.

(** Replacing the object under a path twice is replacing it once. *)
Lemma replaceAt_replaceAt p root s0 s1 t :
  descend p root = Returns s0 →
  replaceAt p (replaceAt p root s1) t = replaceAt p root t.
Proof.
  unfold descend. generalize p at 1 as full. revert root.
  induction p as [|e p IH]; intros root full Hs0; [reflexivity|].
  apply descendFrom_step in Hs0 as [child [Hget [Hchild Hrest]]].
  simpl replaceAt at 2 3. rewrite Hget.
  destruct root as [| | | |str|items|fields]; try discriminate Hget.
  - cbn [withChild replaceAt]. now rewrite Hget.
  - cbn [getProperty] in Hget. cbn [withChild]. destruct (arrayIndex e) as [n|] eqn:Hidx.
    + injection Hget as Hget. cbn [replaceAt getProperty]. rewrite Hidx.
      rewrite nth_lookup, list_lookup_insert_eq
        by (apply nth_defined_in_range; now rewrite Hget).
      cbn [default withChild]. rewrite Hidx, list_insert_insert_eq.
      do 2 f_equal. now apply (IH child full).
    + cbn [replaceAt getProperty]. rewrite Hidx.
      destruct (String.eqb (propertyKey e) "length"); [|discriminate Hget].
      cbn [withChild]. now rewrite Hidx.
  - cbn [withChild replaceAt getProperty]. rewrite assocGet_assocSet.
    cbn [withChild]. rewrite assocSet_assocSet. do 2 f_equal. now apply (IH child full).
Qed.
End Hoisting.

Lemma applyChange_defined (ch : change) (s r : value) :
  s ≠ VUndefined → applyChange s ch = Returns r → r ≠ VUndefined.
Proof.
  intros Hs H. destruct (applyChange_kind ch s r H) as [Hp Hn].
  destruct (isPrimitive s) eqn:Hk.
  - now rewrite (Hp eq_refl).
  - specialize (Hn eq_refl). intros ->. discriminate Hn.
Qed.

Lemma stripPrefix_of_prefixed (cp rest : path) (p : option path) f a c :
  orEmpty p = cp ++ rest →
  stripPrefix (length cp) (Change p f a c) = Change (pathField rest) f a c.
Proof.
  intros H. unfold stripPrefix. cbn [ch_p ch_f ch_a ch_c]. rewrite H.
  now rewrite drop_app_length.
Qed.

(** Changes that share the beginning [cp] of their paths, applied one after
    the other to the document, act like the changes without [cp] applied
    one after the other to the object [cp] leads to. *)
Lemma hoist_children (cp : path) (changes : list change) :
  Forall (fun ch => cp `prefix_of` pathOf ch) changes →
  ∀ root s0 r,
    descend cp root = Returns s0 →
    applyChildren changes root = Returns r →
    ∃ s', applyChildren (List.map (stripPrefix (length cp)) changes) s0 = Returns s' ∧
          r = replaceAt cp root s'.
Proof.
  induction 1 as [|x l [rest Hx] _ IH]; intros root s0 r Hs0 H.
  - simpl in H. injection H as <-. exists s0. split; [reflexivity|].
    symmetry. now apply replaceAt_same.
  - cbn [applyChildren] in H. apply bindOutcome_returns in H as [root1 [Hx1 Hl]].
    destruct x as [px f a c]. unfold pathOf in Hx. cbn [ch_p] in Hx.
    rewrite (applyChange_same_path root px (Some (cp ++ rest))) in Hx1 by exact Hx.
    apply applyChange_path_app in Hx1 as [s [s1 [Hs [Happ ->]]]].
    rewrite Hs0 in Hs. injection Hs as <-.
    assert (Hback : descend cp (replaceAt cp root s1) = Returns s1).
    { destruct cp as [|e cp]; [reflexivity|].
      apply (descend_replaceAt _ _ s0); [exact Hs0| |].
      - intros Hp. now apply (applyChange_kind _ _ _ Happ).
      - eapply applyChange_defined; [|exact Happ].
        eapply descend_defined; [|exact Hs0]. discriminate. }
    destruct (IH _ _ _ Hback Hl) as [s' [Hkids ->]].
    exists s'. split.
    + cbn [List.map applyChildren]. rewrite (stripPrefix_of_prefixed cp rest) by exact Hx.
      rewrite (applyChange_same_path s0 _ (Some rest)) by apply orEmpty_pathField.
      rewrite Happ. exact Hkids.
    + now apply (replaceAt_replaceAt _ _ s0).
Qed.

(** The node built from the raw changes acts like the raw changes applied
    one after the other. *)
Lemma wrap_keeps (changes : list change) (root r : value) :
  applyChildren changes root = Returns r →
  applyChange root (wrapChanges changes) = Returns r.
Proof.
  intros H. destruct changes as [|x [|y rest]].
  - simpl in H. injection H as <-. reflexivity.
  - cbn [applyChildren] in H. apply bindOutcome_returns in H as [r' [Hx H]].
    injection H as <-. rewrite <- Hx. destruct x as [p f a c]. unfold wrapChanges.
    apply applyChange_same_path. apply orEmpty_pathField.
  - rewrite wrap_several by (simpl; lia).
    set (changes := x :: y :: rest) in *.
    set (cp := findCommonPrefix changes).
    assert (Hcommon : Forall (fun ch => cp `prefix_of` pathOf ch) changes).
    { apply Forall_forall. intros ch Hch. now apply findCommonPrefix_is_common. }
    assert (Hs0 : ∃ s0, descend cp root = Returns s0).
    { pose proof H as H'. cbn [applyChildren] in H'.
      apply bindOutcome_returns in H' as [root1 [Hx _]].
      apply Forall_cons in Hcommon as [[rest' Hpx] _].
      destruct x as [px f a c]. unfold pathOf in Hpx. cbn [ch_p] in Hpx.
      rewrite (applyChange_same_path root px (Some (cp ++ rest'))) in Hx by exact Hpx.
      apply applyChange_path_app in Hx as [s [_ [Hs _]]]. now exists s. }
    destruct Hs0 as [s0 Hs0].
    destruct (hoist_children cp changes Hcommon root s0 r Hs0 H) as [s' [Hkids ->]].
    rewrite applyChange_unfold. unfold pathOf. cbn [ch_p ch_f ch_a ch_c orEmpty].
    cbv zeta. rewrite orEmpty_pathField, Hs0. cbn [bindOutcome callChangeFunction].
    now rewrite Hkids.
Qed.

Lemma keepsOwnFunctions_repath (p p' : option path) f a c :
  keepsOwnFunctions (Change p' f a c) = keepsOwnFunctions (Change p f a c).
Proof. reflexivity. Qed.

Lemma keepsOwnFunctions_strip (n : nat) (changes : list change) :
  forallb keepsOwnFunctions (List.map (stripPrefix n) changes)
  = forallb keepsOwnFunctions changes.
Proof.
  induction changes as [|[p f a c] l IH]; [reflexivity|].
  cbn [List.map forallb]. now rewrite IH.
Qed.

Lemma keepsOwnFunctions_wrap (changes : list change) :
  forallb keepsOwnFunctions changes = true →
  keepsOwnFunctions (wrapChanges changes) = true.
Proof.
  intros H. destruct changes as [|x [|y rest]].
  - reflexivity.
  - destruct x as [p f a c]. cbn [forallb] in H. rewrite andb_true_r in H. exact H.
  - rewrite wrap_several by (simpl; lia). cbn [keepsOwnFunctions].
    now rewrite keepsOwnFunctions_strip.
Qed.

(** X6.  Consolidation keeps the effect of the raw changes, as long as no
    node in them has both a function of its own and exactly one child
    carrying a function: when applying the raw changes one after the other
    returns a document, applying the single consolidated change returns the
    same document. *)
Theorem consolidate_keeps_effect (changes : list change) (root r : value)
        (Hsafe : forallb keepsOwnFunctions changes = true)
        (Hret : applyChildren changes root = Returns r) :
  applyChange root (consolidateChanges changes None) = Returns r.
Proof.
  unfold consolidateChanges. apply unnest_keeps.
  - now apply keepsOwnFunctions_wrap.
  - now apply wrap_keeps.
Qed.

Lemma unnest_keeps_effect_witness :
  keepsOwnFunctions wrappedAssignment = true ∧
  unnestSingleChildren wrappedAssignment
  = Change (Some [Key "glyphs"; Key "A"]) (Some "=")
           (Some [VStr "xAdvance"; VNum 600]) None ∧
  applyChange sampleDocument (unnestSingleChildren wrappedAssignment)
  = Returns (VObj [("glyphs", VObj [("A", VObj [("xAdvance", VNum 600);
                                                ("components",
                                                 VArr [VStr "a"; VStr "b"])])])]).
Proof.
  split; [reflexivity|]. split; [reflexivity|].
  apply (unnest_keeps_effect wrappedAssignment sampleDocument); reflexivity.
Defined.

Lemma consolidate_keeps_effect_witness :
  forallb keepsOwnFunctions advanceEdits = true ∧
  applyChildren advanceEdits sampleDocument = Returns editedDocument ∧
  applyChange sampleDocument (consolidateChanges advanceEdits None)
  = Returns editedDocument.
Proof.
  split; [reflexivity|]. split; [reflexivity|].
  apply (consolidate_keeps_effect advanceEdits sampleDocument); reflexivity.
Defined.

(** X7.  A node with a function of its own and exactly one child that
    carries a function is replaced by that child: its own function and
    arguments are not part of the consolidated change.  For a node that
    assigns one key itself and a second key through its only child, the
    raw change sets both keys of an object, the consolidated change only
    the child's. *)
Theorem consolidation_drops_function_of_single_parent
        (p : option path) (f : option string) (a : option (list value)) (child : change)
        (k1 k2 : string) (v1 v2 : value) (fields : list (string * value))
        (Hchild : anyFunction child = true)
        (Hk1 : k1 ≠ "__proto__") (Hk2 : k2 ≠ "__proto__") :
  ch_f (consolidateChange (Change p f a (Some [child])) None)
    = ch_f (unnestSingleChildren child) ∧
  ch_a (consolidateChange (Change p f a (Some [child])) None)
    = ch_a (unnestSingleChildren child) ∧
  applyChange (VObj fields) (assignWithChild k1 k2 v1 v2)
    = Returns (VObj (assocSet k2 v2 (assocSet k1 v1 fields))) ∧
  applyChange (VObj fields) (consolidateChange (assignWithChild k1 k2 v1 v2) None)
    = Returns (VObj (assocSet k2 v2 fields)).
Proof.
  apply String.eqb_neq in Hk1, Hk2.
  assert (Hcollapse : ∀ q, unnestSingleChildren (Change q f a (Some [child]))
                           = Change (pathField (orEmpty q ++ orEmpty (ch_p (unnestSingleChildren child))))
                                    (ch_f (unnestSingleChildren child))
                                    (ch_a (unnestSingleChildren child))
                                    (ch_c (unnestSingleChildren child))).
  { intros q. rewrite unnest_node. cbv zeta. cbn [List.map List.filter].
    rewrite unnest_nonempty_iff_function, Hchild. now rewrite collapsed_path. }
  unfold consolidateChange, consolidateChanges, wrapChanges.
  cbn [ch_p ch_f ch_a ch_c]. rewrite Hcollapse.
  split; [reflexivity|]. split; [reflexivity|].
  split.
  - unfold assignWithChild. cbn. rewrite Hk1. cbn. now rewrite Hk2.
  - unfold assignWithChild. cbn. now rewrite Hk2.
Qed.

Lemma consolidation_drops_function_of_single_parent_witness :
  applyChange (VObj []) (assignWithChild "xAdvance" "yAdvance" (VNum 600) (VNum 0))
  = Returns (VObj [("xAdvance", VNum 600); ("yAdvance", VNum 0)]) ∧
  applyChange (VObj [])
              (consolidateChange (assignWithChild "xAdvance" "yAdvance" (VNum 600) (VNum 0))
                                 None)
  = Returns (VObj [("yAdvance", VNum 0)]).
Proof.
  assert (H1 : "xAdvance" ≠ "__proto__") by discriminate.
  assert (H2 : "yAdvance" ≠ "__proto__") by discriminate.
  destruct (consolidation_drops_function_of_single_parent
              None (Some "=") None (Change None (Some "d") None None)
              "xAdvance" "yAdvance" (VNum 600) (VNum 0) [] eq_refl H1 H2)
    as (_ & _ & Hraw & Hcons).
  split; [exact Hraw|exact Hcons].
Defined.

(** ** More on the path matcher *)

Lemma matchChange_unfold (ch : change) (matchPath : path) :
  matchChange ch matchPath =
  match matchPathLoop (pathOf ch) matchPath with
  | inl result => result
  | inr matchPath' => existsb (fun subChange => matchChange subChange matchPath')
                              (orEmpty (ch_c ch))
  end.
Proof. destruct ch as [p f a [children|]]; reflexivity. Qed.

Lemma matchChange_empty (ch : change) : matchChange ch [] = false.
Proof.
  induction ch as [p f a|p f a children IH] using change_children_ind;
    rewrite matchChange_unfold; unfold pathOf; cbn [ch_p ch_c orEmpty];
    destruct (orEmpty p) as [|e q]; cbn [matchPathLoop]; try reflexivity.
  induction IH as [|x l Hx _ IHl]; [reflexivity|]. cbn [existsb]. now rewrite Hx, IHl.
Qed.

(** X8.  No change touches the empty path: [matchChange(change, [])] is
    [false] for every change. *)
Theorem matchChange_never_matches_empty_path (ch : change) :
  matchChange ch [] = false.
Proof. apply matchChange_empty. Qed.

Lemma matchPathLoop_shorter (nodePath q r : path) :
  q ≠ [] →
  match matchPathLoop nodePath (q ++ r) with
  | inl true => matchPathLoop nodePath q = inl true
  | inl false => True
  | inr m => matchPathLoop nodePath q = inl true ∨
             ∃ q', q' ≠ [] ∧ matchPathLoop nodePath q = inr q' ∧ m = q' ++ r
  end.
Proof.
  revert q. induction nodePath as [|e np IH]; intros q Hq.
  - right. now exists q.
  - destruct q as [|x q0]; [congruence|]. cbn [app matchPathLoop].
    destruct (strictNe (Some e) (Some x)); [exact I|].
    destruct q0 as [|y q1].
    + cbn [app]. destruct r as [|z r'].
      * reflexivity.
      * destruct (matchPathLoop np (z :: r')) as [[|]|m]; auto.
    + cbn [app]. apply (IH (y :: q1)). discriminate.
Qed.

Lemma matchChange_ancestor (ch : change) :
  ∀ q r, q ≠ [] → matchChange ch (q ++ r) = true → matchChange ch q = true.
Proof.
  induction ch as [p f a|p f a children IH] using change_children_ind; intros q r Hq;
    rewrite !matchChange_unfold; unfold pathOf; cbn [ch_p ch_c orEmpty];
    pose proof (matchPathLoop_shorter (orEmpty p) q r Hq) as Hloop;
    destruct (matchPathLoop (orEmpty p) (q ++ r)) as [[|]|m].
  - now rewrite Hloop.
  - discriminate.
  - discriminate.
  - now rewrite Hloop.
  - discriminate.
  - destruct Hloop as [->|[q' [Hq' [-> ->]]]]; [reflexivity|].
    intros H. apply existsb_exists in H as [x [Hin Hx]]. apply existsb_exists.
    exists x. split; [exact Hin|]. rewrite Forall_forall in IH.
    apply (IH x (proj2 (list_elem_of_In _ _) Hin) q' r Hq' Hx).
Qed.

(** X9.  A change that touches a path touches every non-empty beginning of
    that path: if [matchChange(change, q ++ r)] is [true] and [q] is not
    empty, then [matchChange(change, q)] is [true]. *)
Theorem matchChange_touches_ancestors (ch : change) (q r : path)
        (Hq : q ≠ []) (Hmatch : matchChange ch (q ++ r) = true) :
  matchChange ch q = true.
Proof. exact (matchChange_ancestor ch q r Hq Hmatch). Qed.

Lemma matchChange_touches_ancestors_witness :
  matchChange (Change (Some [Key "glyphs"]) None None
                      (Some [Change (Some [Key "A"; Key "path"]) (Some "=xy") None None]))
              ([Key "glyphs"; Key "A"] ++ [Key "path"]) = true ∧
  matchChange (Change (Some [Key "glyphs"]) None None
                      (Some [Change (Some [Key "A"; Key "path"]) (Some "=xy") None None]))
              [Key "glyphs"; Key "A"] = true.
Proof.
  split; [reflexivity|].
  apply (matchChange_touches_ancestors _ [Key "glyphs"; Key "A"] [Key "path"]);
    [discriminate|reflexivity].
Defined.

Lemma strictNe_false (e x : segment) : strictNe (Some e) (Some x) = false ↔ e = x.
Proof.
  unfold strictNe. rewrite negb_false_iff, bool_decide_eq_true. split; congruence.
Qed.

(** What the loop over the node's path answers for a non-empty target. *)
Lemma matchPathLoop_spec (nodePath target : path) :
  target ≠ [] →
  match matchPathLoop nodePath target with
  | inl true => target `prefix_of` nodePath
  | inl false => ¬ target `prefix_of` nodePath ∧ ¬ nodePath `prefix_of` target
  | inr m => m ≠ [] ∧ target = nodePath ++ m
  end.
Proof.
  revert target. induction nodePath as [|e np IH]; intros target Ht; cbn [matchPathLoop].
  - split; [exact Ht|reflexivity].
  - destruct target as [|x t0]; [congruence|].
    destruct (strictNe (Some e) (Some x)) eqn:Hne.
    + assert (e ≠ x) by (intros ->; now rewrite strictNe_same in Hne).
      split; intros Hp; apply prefix_cons_inv_1 in Hp; congruence.
    + apply strictNe_false in Hne as ->. destruct t0 as [|y t1].
      * apply prefix_cons, prefix_nil.
      * specialize (IH (y :: t1) ltac:(discriminate)).
        destruct (matchPathLoop np (y :: t1)) as [[|]|m].
        -- now apply prefix_cons.
        -- destruct IH as [H1 H2]. split; intros Hp; apply prefix_cons_inv_2 in Hp; tauto.
        -- destruct IH as [Hm ->]. split; [exact Hm|reflexivity].
Qed.

Lemma prefix_of_app (target np rest : path) :
  target `prefix_of` (np ++ rest) →
  target `prefix_of` np ∨ ∃ m, m ≠ [] ∧ target = np ++ m ∧ m `prefix_of` rest.
Proof.
  revert target. induction np as [|e np IH]; intros target H.
  - destruct target as [|x t]; [left; apply prefix_nil|].
    right. exists (x :: t). split; [discriminate|]. split; [reflexivity|exact H].
  - destruct target as [|x t]; [left; apply prefix_nil|].
    cbn [app] in H. pose proof (prefix_cons_inv_1 _ _ _ _ H) as ->.
    apply prefix_cons_inv_2, IH in H as [H|[m [Hm [-> Hp]]]].
    + left. now apply prefix_cons.
    + right. exists m. auto.
Qed.

Lemma nodePaths_unfold (ch : change) :
  nodePaths ch
  = pathOf ch :: flat_map (fun child => List.map (app (pathOf ch)) (nodePaths child))
                          (orEmpty (ch_c ch)).
Proof. destruct ch as [p f a [children|]]; reflexivity. Qed.

Lemma matchChange_spec (ch : change) :
  ∀ target, target ≠ [] →
    (matchChange ch target = true ↔
     ∃ nodePath, nodePath ∈ nodePaths ch ∧ target `prefix_of` nodePath).
Proof.
  induction ch as [p f a|p f a children IH] using change_children_ind; intros target Ht;
    rewrite matchChange_unfold, nodePaths_unfold; unfold pathOf; cbn [ch_p ch_c orEmpty];
    pose proof (matchPathLoop_spec (orEmpty p) target Ht) as Hloop;
    destruct (matchPathLoop (orEmpty p) target) as [[|]|m].
  - split; [intros _|reflexivity]. exists (orEmpty p). split; [left|exact Hloop].
  - split; [discriminate|]. intros [np [Hnp Hpre]]. cbn [flat_map] in Hnp.
    apply list_elem_of_singleton in Hnp as ->. tauto.
  - cbn [existsb flat_map]. split; [discriminate|]. intros [np [Hnp Hpre]].
    apply list_elem_of_singleton in Hnp as ->. destruct Hloop as [Hm ->].
    destruct Hpre as [k Hk]. rewrite <- app_assoc in Hk.
    rewrite <- (app_nil_r (orEmpty p)) in Hk at 1. apply app_inv_head in Hk.
    symmetry in Hk. apply app_eq_nil in Hk as [-> _]. congruence.
  - split; [intros _|reflexivity]. exists (orEmpty p). split; [left|exact Hloop].
  - split; [discriminate|]. intros [np [Hnp Hpre]].
    apply elem_of_cons in Hnp as [->|Hnp]; [tauto|].
    apply list_elem_of_In, in_flat_map in Hnp as [child [_ Hnp]].
    apply in_map_iff in Hnp as [rest [<- _]].
    destruct Hloop as [Hno1 Hno2]. clear IH.
    assert (orEmpty p `prefix_of` target ∨ target `prefix_of` orEmpty p) as [H|H];
      [|tauto|tauto].
    eapply prefix_weak_total; [now exists rest|exact Hpre].
  - destruct Hloop as [Hm ->]. rewrite Forall_forall in IH. split.
    + intros H. apply existsb_exists in H as [child [Hin Hchild]].
      apply IH in Hchild as [rest [Hrest Hpre]]; [|now apply list_elem_of_In|exact Hm].
      exists (orEmpty p ++ rest). split; [|now apply prefix_app].
      right. apply list_elem_of_In, in_flat_map. exists child. split; [exact Hin|].
      apply in_map. now apply list_elem_of_In.
    + intros [np [Hnp Hpre]]. apply elem_of_cons in Hnp as [->|Hnp].
      * destruct Hpre as [k Hk]. rewrite <- app_assoc in Hk.
        rewrite <- (app_nil_r (orEmpty p)) in Hk at 1. apply app_inv_head in Hk.
        symmetry in Hk. apply app_eq_nil in Hk as [-> _]. congruence.
      * apply list_elem_of_In, in_flat_map in Hnp as [child [Hin Hnp]].
        apply in_map_iff in Hnp as [rest [<- Hrest]].
        apply prefix_app_inv in Hpre.
        apply existsb_exists. exists child. split; [exact Hin|].
        apply IH; [now apply list_elem_of_In|exact Hm|].
        exists rest. split; [now apply list_elem_of_In|exact Hpre].
Qed.

(** X10.  For a non-empty target path, [matchChange] answers [true] exactly
    when the target is a beginning of the path of some node of the change,
    the node's path being counted from where the change is applied: the
    functions and arguments of the nodes play no part, and a node whose
    path ends above the target does not match through itself. *)
Theorem matchChange_matches_node_paths (ch : change) (target : path)
        (Htarget : target ≠ []) :
  matchChange ch target = true ↔
  ∃ nodePath, nodePath ∈ nodePaths ch ∧ target `prefix_of` nodePath.
Proof. exact (matchChange_spec ch target Htarget). Qed.

Lemma matchChange_matches_node_paths_witness :
  nodePaths directAssignNode = [[Key "glyphs"; Key "A"]; [Key "glyphs"; Key "A"]] ∧
  (matchChange directAssignNode [Key "glyphs"] = true ↔
   ∃ nodePath, nodePath ∈ nodePaths directAssignNode ∧
               [Key "glyphs"] `prefix_of` nodePath).
Proof.
  split; [reflexivity|].
  apply (matchChange_matches_node_paths directAssignNode [Key "glyphs"]). discriminate.
Defined.

(** ** More on the undo stack *)

Lemma top_fst_pop (st : UndoStack) (isRedo : bool) :
  getTopUndoRedoRecord st isRedo = fst (popUndoRedoRecord st isRedo).
Proof.
  destruct st as [undo redo], isRedo; unfold getTopUndoRedoRecord, popUndoRedoRecord;
    cbn [negb undoStack redoStack].
  - destruct redo as [|x redo' _] using rev_ind; [reflexivity|].
    rewrite pop_snoc, last_snoc. now destruct redo'.
  - destruct undo as [|x undo' _] using rev_ind; [reflexivity|].
    rewrite pop_snoc, last_snoc. now destruct undo'.
Qed.

(** X11.  Peeking and popping agree: [getTopUndoRedoRecord(isRedo)] is the
    record [popUndoRedoRecord(isRedo)] would return, or [undefined] when it
    would return [undefined]. *)
Theorem top_is_what_pop_returns (st : UndoStack) (isRedo : bool) :
  getTopUndoRedoRecord st isRedo = fst (popUndoRedoRecord st isRedo).
Proof. apply top_fst_pop. Qed.

(** X12.  Undo and redo never lose, duplicate or reorder records: after
    any sequence of undos and redos, the undo stack followed by the redo
    stack read from its top down is the list it was before. *)
Theorem undo_redo_conserve_records (st : UndoStack) (pops : list bool) :
  let st' := fold_left (fun s isRedo => snd (popUndoRedoRecord s isRedo)) pops st in
  undoStack st' ++ rev (redoStack st') = undoStack st ++ rev (redoStack st).
Proof.
  cbv zeta. revert st. induction pops as [|isRedo pops IH]; intros st; [reflexivity|].
  cbn [fold_left]. rewrite IH. apply pop_keeps_timeline.
Qed.

Lemma assocSet_fresh (k : string) (v : value) (fields : list (string * value)) :
  assocGet k fields = None → assocSet k v fields = fields ++ [(k, v)].
Proof.
  induction fields as [|[k' v'] fields IH]; simpl; [reflexivity|].
  destruct (String.eqb k k'); [discriminate|]. intros H. now rewrite IH.
Qed.

Lemma assocGet_snoc (k k' : string) (v : value) (fields : list (string * value)) :
  k ≠ k' → assocGet k (fields ++ [(k', v)]) = assocGet k fields.
Proof.
  intros Hne. induction fields as [|[k0 v0] fields IH]; simpl.
  - apply String.eqb_neq in Hne. now rewrite Hne.
  - destruct (String.eqb k k0); [reflexivity|exact IH].
Qed.

Section ReversedKeys.
Implicit Types (k : string) (info rev acc : list (string * value)).

(** A key that is not an inherited name is filed under a key that is not
    one either, and from which the same lookup leads back. *)
Lemma reversedInfoKey_modelled k :
  inheritedName k = false →
  ∃ k', reversedInfoKey k = Returns k' ∧ inheritedName k' = false ∧
        reversedInfoKey k' = Returns k.
Proof.
  intros Hk. unfold reversedInfoKey at 1. rewrite (lookupKey_modelled _ _ Hk).
  cbn [bindOutcome].
  destruct (decide (k = "redoSelection")) as [->|Hredo].
  { exists "undoSelection". repeat split. }
  destruct (decide (k = "undoSelection")) as [->|Hundo].
  { exists "redoSelection". repeat split. }
  rewrite lookup_insert_ne by done. rewrite lookup_singleton_ne by done.
  exists k. split; [reflexivity|]. split; [exact Hk|].
  unfold reversedInfoKey. rewrite (lookupKey_modelled _ _ Hk). cbn [bindOutcome].
  rewrite lookup_insert_ne by done. now rewrite lookup_singleton_ne by done.
Qed.

Lemma reversedInfoKey_injective k1 k2 k' :
  inheritedName k1 = false → inheritedName k2 = false →
  reversedInfoKey k1 = Returns k' → reversedInfoKey k2 = Returns k' → k1 = k2.
Proof.
  intros H1 H2 E1 E2.
  destruct (reversedInfoKey_modelled k1 H1) as (k1' & E1' & _ & B1).
  destruct (reversedInfoKey_modelled k2 H2) as (k2' & E2' & _ & B2).
  rewrite E1 in E1'. injection E1' as <-. rewrite E2 in E2'. injection E2' as <-.
  rewrite B1 in B2. now injection B2.
Qed.

(** The loop of [reverseUndoInfo] appends one entry per entry, in order,
    for distinct keys none of which is an inherited name. *)
Lemma reverseUndoInfo_loop info acc :
  NoDup (List.map fst info) →
  Forall (fun k => inheritedName k = false) (List.map fst info) →
  (∀ k k', k ∈ List.map fst info → reversedInfoKey k = Returns k' →
           assocGet k' acc = None) →
  ∃ rev,
    forEach (fun revUndoInfo '(k, v) =>
               let* k' := reversedInfoKey k in Returns (assocSet k' v revUndoInfo))
            info acc
    = Returns (acc ++ rev) ∧
    Forall2 (fun '(k, v) '(k', v') => reversedInfoKey k = Returns k' ∧ v' = v) info rev.
Proof.
  revert acc. induction info as [|[k v] info IH]; intros acc Hnd Hnames Hfresh.
  - exists []. cbn [forEach]. rewrite app_nil_r. split; [reflexivity|constructor].
  - cbn [List.map fst] in Hnd, Hnames. apply NoDup_cons in Hnd as [Hk Hnd].
    apply Forall_cons in Hnames as [Hname Hnames].
    destruct (reversedInfoKey_modelled k Hname) as (k' & Ek & _ & _).
    cbn [forEach]. rewrite Ek. cbn [bindOutcome].
    rewrite assocSet_fresh by (apply (Hfresh k k'); [left|exact Ek]).
    destruct (IH (acc ++ [(k', v)]) Hnd Hnames) as (rev & Hloop & Hrev).
    { intros k0 k0' Hin E0. rewrite assocGet_snoc.
      - apply (Hfresh k0 k0'); [now right|exact E0].
      - intros ->. apply Hk.
        rewrite Forall_forall in Hnames.
        now rewrite <- (reversedInfoKey_injective k0 k k' (Hnames _ Hin) Hname E0 Ek). }
    exists ((k', v) :: rev). rewrite Hloop, <- app_assoc. split; [reflexivity|].
    constructor; [now split|exact Hrev].
Qed.

Lemma reverseUndoInfo_returns info :
  NoDup (List.map fst info) →
  Forall (fun k => inheritedName k = false) (List.map fst info) →
  ∃ rev, reverseUndoInfo info = Returns rev ∧
         Forall2 (fun '(k, v) '(k', v') => reversedInfoKey k = Returns k' ∧ v' = v) info rev.
Proof.
  intros Hnd Hnames. unfold reverseUndoInfo.
  destruct (reverseUndoInfo_loop info [] Hnd Hnames) as (rev & Hloop & Hrev);
    [reflexivity|].
  exists rev. now split.
Qed.

(** The reversed entries have distinct keys again, none an inherited name,
    and reversing them leads back. *)
Lemma reversed_keys info rev :
  Forall (fun k => inheritedName k = false) (List.map fst info) →
  Forall2 (fun '(k, v) '(k', v') => reversedInfoKey k = Returns k' ∧ v' = v) info rev →
  Forall (fun k => inheritedName k = false) (List.map fst rev) ∧
  (NoDup (List.map fst info) → NoDup (List.map fst rev)) ∧
  Forall2 (fun '(k, v) '(k', v') => reversedInfoKey k = Returns k' ∧ v' = v) rev info.
Proof.
  intros Hnames Hrev. induction Hrev as [|[k v] [k' v'] info rev [Ek ->] Hrev IH].
  - repeat split; constructor.
  - cbn [List.map fst] in *. apply Forall_cons in Hnames as [Hname Hnames].
    destruct (IH Hnames) as (IH1 & IH2 & IH3).
    destruct (reversedInfoKey_modelled k Hname) as (k0 & Ek0 & Hk0 & Back).
    rewrite Ek in Ek0. injection Ek0 as <-.
    split; [now constructor|]. split; [|constructor; [now split|exact IH3]].
    intros Hnd. apply NoDup_cons in Hnd as [Hk Hnd]. apply NoDup_cons.
    split; [|now apply IH2].
    intros Hin. apply Hk. clear -Hin Hrev Hnames Hname Ek.
    induction Hrev as [|[k1 v1] [k1' v1'] info rev [E1 _] Hrev IH];
      cbn [List.map fst] in *; [inversion Hin|].
    apply Forall_cons in Hnames as [Hname1 Hnames].
    apply elem_of_cons in Hin as [->|Hin].
    + rewrite (reversedInfoKey_injective k k1 _ Hname Hname1 Ek E1). left.
    + right. now apply IH.
Qed.

Lemma reversed_twice info rev rev' :
  Forall (fun k => inheritedName k = false) (List.map fst info) →
  Forall2 (fun '(k, v) '(k', v') => reversedInfoKey k = Returns k' ∧ v' = v) info rev →
  Forall2 (fun '(k, v) '(k', v') => reversedInfoKey k = Returns k' ∧ v' = v) rev rev' →
  rev' = info.
Proof.
  intros Hnames Hrev. revert rev'.
  induction Hrev as [|[k v] [k' v'] info rev [Ek ->] Hrev IH]; intros rev' Hrev'.
  - now inversion Hrev'.
  - cbn [List.map fst] in Hnames. apply Forall_cons in Hnames as [Hname Hnames].
    destruct rev' as [|[k'' v''] rev']; [inversion Hrev'|].
    apply Forall2_cons in Hrev' as [[Ek' ->] Hrest].
    destruct (reversedInfoKey_modelled k Hname) as (k0 & Ek0 & _ & Back).
    rewrite Ek in Ek0. injection Ek0 as <-. rewrite Back in Ek'. injection Ek' as <-.
    f_equal. now apply IH.
Qed.
End ReversedKeys.

(** X13.  Reversing an undo record twice gives the record back, for an
    [info] object whose keys are distinct (as the keys of an object are) and
    are not names that every object inherits: the change and the rollback
    change are swapped and swapped back, and every entry of [info] keeps its
    place and its value under the key that [map[k] || k] gives, which is
    [undoSelection] for [redoSelection] and the reverse. *)
Theorem reverseUndoRecord_involutive (undoRecord : UndoRecord)
        (Hkeys : NoDup (List.map fst (rec_info undoRecord)))
        (Hnames : Forall (fun k => inheritedName k = false)
                         (List.map fst (rec_info undoRecord))) :
  ∃ reversed,
    reverseUndoRecord undoRecord = Returns reversed ∧
    reverseUndoRecord reversed = Returns undoRecord ∧
    rec_change reversed = rec_rollbackChange undoRecord ∧
    rec_rollbackChange reversed = rec_change undoRecord ∧
    Forall2 (fun '(k, v) '(k', v') => reversedInfoKey k = Returns k' ∧ v' = v)
            (rec_info undoRecord) (rec_info reversed) ∧
    reversedInfoKey "undoSelection" = Returns "redoSelection" ∧
    reversedInfoKey "redoSelection" = Returns "undoSelection".
Proof.
  destruct undoRecord as [ch rb info]. cbn [rec_info] in Hkeys, Hnames.
  destruct (reverseUndoInfo_returns info Hkeys Hnames) as (rev & Hrev & Hentries).
  destruct (reversed_keys info rev Hnames Hentries) as (Hnames' & Hkeys' & _).
  destruct (reverseUndoInfo_returns rev (Hkeys' Hkeys) Hnames') as (rev' & Hrev' & Hentries').
  rewrite (reversed_twice info rev rev' Hnames Hentries Hentries') in Hrev'.
  exists {| rec_change := rb; rec_rollbackChange := ch; rec_info := rev |}.
  unfold reverseUndoRecord. cbn [rec_change rec_rollbackChange rec_info].
  rewrite Hrev, Hrev'. cbn [bindOutcome]. repeat split. exact Hentries.
Qed.

Lemma reverseUndoRecord_involutive_witness :
  ∃ reversed,
    reverseUndoRecord fullRecord = Returns reversed ∧
    reverseUndoRecord reversed = Returns fullRecord ∧
    rec_info reversed
    = [("label", VStr "change advance");
       ("redoSelection", VArr [VStr "point/1"]);
       ("undoSelection", VArr [VStr "point/2"]);
       ("location", VObj [])].
Proof.
  assert (Hkeys : NoDup (List.map fst (rec_info fullRecord))).
  { apply (proj1 (bool_decide_eq_true _)). reflexivity. }
  assert (Hnames : Forall (fun k => inheritedName k = false)
                          (List.map fst (rec_info fullRecord)))
    by (repeat constructor).
  destruct (reverseUndoRecord_involutive fullRecord Hkeys Hnames)
    as (reversed & Hrev & Hback & _).
  exists reversed. split; [exact Hrev|]. split; [exact Hback|].
  assert (Hcomputed : reverseUndoRecord fullRecord
                      = Returns {| rec_change := rec_rollbackChange fullRecord;
                                   rec_rollbackChange := rec_change fullRecord;
                                   rec_info := [("label", VStr "change advance");
                                                ("redoSelection", VArr [VStr "point/1"]);
                                                ("undoSelection", VArr [VStr "point/2"]);
                                                ("location", VObj [])] |})
    by reflexivity.
  rewrite Hcomputed in Hrev. now injection Hrev as <-.
Defined.

(** ** Undo and redo through the controller *)

Lemma undoRedoGlyph_with_record (fc : FontController) (g : string) (isRedo : bool)
      (stack stack' : UndoStack) (popped undoRecord : UndoRecord) :
  undoStacks fc !! g = Some stack →
  popUndoRedoRecord stack isRedo = (Some popped, stack') →
  (if isRedo then reverseUndoRecord popped else Returns popped) = Returns undoRecord →
  undoRedoGlyph fc g isRedo
  = Returns
      (Some (rec_info undoRecord),
       {| glyphUsedBy := glyphUsedBy fc; glyphMadeOf := glyphMadeOf fc;
          undoStacks := <[g := stack']> (undoStacks fc);
          calls := calls fc ++
                   [ControllerApplyChange (rec_rollbackChange undoRecord);
                    FontEditFinal (rec_rollbackChange undoRecord) (rec_change undoRecord)
                                  (labelOf (rec_info undoRecord)) true;
                    LaterNotifyEditListeners "editFinal"] |}).
Proof.
  intros Hs Hp Hr. unfold undoRedoGlyph.
  rewrite (lookupKey_own _ _ _ Hs). cbn [bindOutcome]. rewrite Hp, Hr. reflexivity.
Qed.

(** X14.  Undo followed by redo through the controller is a round trip.
    With record [R] on top of a glyph's undo stack, [undoRedoGlyph(glyph,
    false)] returns [R.info], moves [R] to the redo stack, applies
    [R.rollbackChange] and commits it with [R.change] as its rollback; the
    [undoRedoGlyph(glyph, true)] that follows returns the info of the
    reversed record, applies [R.change], commits it with [R.rollbackChange]
    as its rollback, and leaves all undo stacks as they were before the
    undo. *)
Theorem undo_then_redo_round_trip (fc : FontController) (g : string)
        (rest redo : list UndoRecord) (R reversed : UndoRecord)
        (Hstack : undoStacks fc !! g
                  = Some {| undoStack := rest ++ [R]; redoStack := redo |})
        (Hreversed : reverseUndoRecord R = Returns reversed) :
  ∃ fc1 fc2,
    undoRedoGlyph fc g false = Returns (Some (rec_info R), fc1) ∧
    undoStacks fc1 !! g = Some {| undoStack := rest; redoStack := redo ++ [R] |} ∧
    undoRedoGlyph fc1 g true = Returns (Some (rec_info reversed), fc2) ∧
    undoStacks fc2 = undoStacks fc ∧
    calls fc2
    = calls fc ++
      [ControllerApplyChange (rec_rollbackChange R);
       FontEditFinal (rec_rollbackChange R) (rec_change R) (labelOf (rec_info R)) true;
       LaterNotifyEditListeners "editFinal";
       ControllerApplyChange (rec_change R);
       FontEditFinal (rec_change R) (rec_rollbackChange R)
                     (labelOf (rec_info reversed)) true;
       LaterNotifyEditListeners "editFinal"].
Proof.
  eexists _, _.
  split.
  { exact (undoRedoGlyph_with_record fc g false _ _ R R Hstack
             (pop_undo_snoc rest redo R) eq_refl). }
  cbn [undoStacks calls].
  assert (Hstack' : <[g := {| undoStack := rest; redoStack := redo ++ [R] |}]>
                      (undoStacks fc) !! g
                    = Some {| undoStack := rest; redoStack := redo ++ [R] |})
    by apply lookup_insert_eq.
  split; [exact Hstack'|].
  split.
  { eapply undoRedoGlyph_with_record;
      [exact Hstack'|apply pop_redo_snoc|exact Hreversed]. }
  assert (Hch : rec_rollbackChange reversed = rec_change R ∧
                rec_change reversed = rec_rollbackChange R).
  { unfold reverseUndoRecord in Hreversed.
    destruct (reverseUndoInfo (rec_info R)); cbn [bindOutcome] in Hreversed;
      try discriminate.
    injection Hreversed as <-. now split. }
  destruct Hch as [-> ->].
  cbn [undoStacks calls]. split.
  - rewrite insert_insert_eq. now apply insert_id.
  - now rewrite <- app_assoc.
Qed.

Lemma undo_then_redo_round_trip_witness :
  ∃ fc1 fc2,
    undoRedoGlyph sampleController "A" false
    = Returns (Some [("label", VStr "change advance")], fc1) ∧
    undoRedoGlyph fc1 "A" true = Returns (Some [("label", VStr "change advance")], fc2) ∧
    undoStacks fc2 = undoStacks sampleController.
Proof.
  assert (Hstack : undoStacks sampleController !! "A"
                   = Some {| undoStack := [] ++ [sampleRecord]; redoStack := [] |})
    by reflexivity.
  assert (Hreversed : reverseUndoRecord sampleRecord
                      = Returns {| rec_change := rec_rollbackChange sampleRecord;
                                   rec_rollbackChange := rec_change sampleRecord;
                                   rec_info := [("label", VStr "change advance")] |})
    by reflexivity.
  destruct (undo_then_redo_round_trip sampleController "A" [] [] sampleRecord _
              Hstack Hreversed)
    as (fc1 & fc2 & Hundo & _ & Hredo & Hstacks & _).
  exists fc1, fc2. split; [exact Hundo|]. split; [exact Hredo|exact Hstacks].
Defined.

(** X15.  What [undoRedoGlyph] returns is what [getUndoRedoInfo] announces:
    for an undo the same info (or [undefined]), for a redo the announced
    info reversed; and the one returns exactly when the other does. *)
Theorem undoRedoGlyph_returns_announced_info (fc : FontController) (g : string) :
  (let* result := undoRedoGlyph fc g false in Returns (fst result))
  = getUndoRedoInfo fc g false ∧
  (let* result := undoRedoGlyph fc g true in Returns (fst result))
  = (let* announced := getUndoRedoInfo fc g true in
     match announced with
     | Some info => let* reversed := reverseUndoInfo info in Returns (Some reversed)
     | None => Returns None
     end).
Proof.
  unfold undoRedoGlyph, getUndoRedoInfo.
  destruct (lookupKey (undoStacks fc) g) as [[stack|]| |]; cbn [bindOutcome];
    [|split; reflexivity..].
  rewrite !top_fst_pop.
  split.
  - destruct (popUndoRedoRecord stack false) as [[r|] stack']; reflexivity.
  - destruct (popUndoRedoRecord stack true) as [[r|] stack']; cbn [fst bindOutcome];
      [|reflexivity].
    unfold reverseUndoRecord.
    destruct (reverseUndoInfo (rec_info r)); reflexivity.
Qed.

(** ** More on the glyph dependency maps *)

(** X16.  [updateGlyphDependencies(glyph)] concerns that glyph only: when it
    returns, for every other glyph [b], whether [b] is a user of a component
    [a] and what [b] is made of are as before, and the undo stacks are not
    touched. *)
Theorem update_leaves_other_glyphs (fc fc' : FontController) (glyph : GlyphController)
        (a b : string) (Hb : b ≠ name glyph)
        (Hupdated : updateGlyphDependencies fc glyph = Returns fc') :
  (b ∈ usersIn (glyphUsedBy fc') a ↔ b ∈ usersIn (glyphUsedBy fc) a) ∧
  glyphMadeOf fc' !! b = glyphMadeOf fc !! b ∧
  undoStacks fc' = undoStacks fc.
Proof.
  destruct (update_returned _ _ _ Hupdated) as (usedBy1 & Hzap & Hadd & -> & -> & _).
  split; [|split; [now apply lookup_insert_ne|reflexivity]].
  rewrite (usersIn_add_all _ _ _ _ a b Hadd), (usersIn_zap_all _ _ _ _ a b Hzap). tauto.
Qed.

Lemma update_leaves_other_glyphs_witness :
  ∃ fc', updateGlyphDependencies sampleController
           {| name := "Aacute"; getAllComponentNames := [] |} = Returns fc' ∧
         ("Bacute" ∈ usersIn (glyphUsedBy fc') "acute"
          ↔ "Bacute" ∈ usersIn (glyphUsedBy sampleController) "acute").
Proof.
  assert (Hne : "Bacute" ≠ "Aacute") by discriminate.
  eexists. split; [reflexivity|].
  exact (proj1 (update_leaves_other_glyphs sampleController _
                  {| name := "Aacute"; getAllComponentNames := [] |}
                  "acute" "Bacute" Hne eq_refl)).
Defined.

(** X17.  Loading a glyph again with an unchanged component list changes
    nothing: after an [updateGlyphDependencies] that returned, a second one
    with the same glyph returns too and leaves both maps exactly as the
    first one left them. *)
Theorem update_twice_is_update_once (fc fc1 : FontController) (glyph : GlyphController)
        (Hupdated : updateGlyphDependencies fc glyph = Returns fc1) :
  updateGlyphDependencies fc1 glyph = Returns fc1.
Proof.
  destruct (update_returned _ _ _ Hupdated) as (usedBy0 & _ & Hadd0 & Hmade & _).
  assert (Hentry : glyphMadeOf fc1 !! name glyph = Some (getAllComponentNames glyph))
    by (rewrite Hmade; apply lookup_insert_eq).
  assert (Hheld : ∀ c, c ∈ getAllComponentNames glyph → is_Some (glyphUsedBy fc1 !! c)).
  { intros c Hc. rewrite (lookup_add_all _ _ _ _ c Hadd0), decide_True by exact Hc.
    now eexists. }
  destruct (zap_all_returns (name glyph) (getAllComponentNames glyph) (glyphUsedBy fc1))
    as [usedBy1 Hzap].
  { apply Forall_forall. intros c Hc. left. now apply Hheld. }
  destruct (add_all_returns (name glyph) (getAllComponentNames glyph) usedBy1)
    as [usedBy2 Hadd].
  { apply Forall_forall. intros c Hc. left.
    rewrite (lookup_zap_all _ _ _ _ c Hzap), decide_True by exact Hc.
    destruct (Hheld c Hc) as [users ->]. now eexists. }
  unfold updateGlyphDependencies.
  rewrite (lookupKey_own _ _ _ Hentry). cbn [bindOutcome].
  rewrite Hzap. cbn [bindOutcome]. rewrite Hadd. cbn [bindOutcome].
  assert (Hused : usedBy2 = glyphUsedBy fc1).
  { apply map_eq. intros a. rewrite (lookup_add_all _ _ _ _ a Hadd). unfold usersIn.
    rewrite (lookup_zap_all _ _ _ _ a Hzap).
    destruct (decide (a ∈ getAllComponentNames glyph)) as [Hin|Hnin]; [|reflexivity].
    rewrite (lookup_add_all _ _ _ _ a Hadd0), decide_True by exact Hin.
    cbn [fmap option_fmap option_map]. f_equal.
    match goal with |- context [usersIn ?m a] => generalize (usersIn m a) end.
    generalize (name glyph). intros g users. clear.
    apply set_eq. intros x. set_unfold. destruct (decide (x = g)); tauto. }
  rewrite Hused.
  rewrite (insert_id _ _ _ Hentry). now destruct fc1.
Qed.

Lemma update_twice_is_update_once_witness :
  updateGlyphDependencies newFontController aacute = Returns aacuteLoaded ∧
  updateGlyphDependencies aacuteLoaded aacute = Returns aacuteLoaded.
Proof.
  assert (Hloaded : updateGlyphDependencies newFontController aacute = Returns aacuteLoaded)
    by reflexivity.
  split; [exact Hloaded|].
  exact (update_twice_is_update_once newFontController aacuteLoaded aacute Hloaded).
Defined.

(** ** Throttled incremental changes *)

Section Throttling.
Implicit Types (ctx : GlyphEditContext) (subm : list change) (base : path).

Lemma incrementalSent_app (cs cs' : list call) :
  incrementalSent (cs ++ cs') = incrementalSent cs ++ incrementalSent cs'.
Proof. apply flat_map_app. Qed.

Lemma last_app_single {A : Type} (l : list A) (x : A) : last (l ++ [x]) = Some x.
Proof. induction l as [|y l IH]; [reflexivity|]. destruct l; [reflexivity|exact IH]. Qed.

Lemma clearTimeout_single (id : nat) (ch : change) :
  clearTimeout (Some id) [(id, ch)] = [].
Proof. unfold clearTimeout. cbn. now rewrite Nat.eqb_refl. Qed.

(** Clearing the remembered timer leaves no timer, whichever of the two
    places remembers it. *)
Lemma invariant_clears base ctx subm :
  sessionInvariant base ctx subm →
  clearTimeout (timeoutID (throttle ctx)) (timers ctx) = [] ∧
  clearTimeout (_throttledEditIncrementalTimeoutID ctx) (timers ctx) = [].
Proof.
  intros (_ & [Hnone|(id & ch & Ht & Hth & Hctx)] & _).
  - rewrite Hnone. split; unfold clearTimeout;
      [destruct (timeoutID (throttle ctx))|destruct (_throttledEditIncrementalTimeoutID ctx)];
      reflexivity.
  - rewrite Ht, Hth, Hctx. split; apply clearTimeout_single.
Qed.

Lemma invariant_sent_sublist base ctx subm :
  sessionInvariant base ctx subm → incrementalSent (sent ctx) `sublist_of` subm.
Proof.
  intros (_ & _ & Hsub & _). etrans; [|exact Hsub]. now apply sublist_inserts_r.
Qed.

(** A non-droppable change: no timer is left and the change is sent. *)
Lemma editIncremental_now base ctx subm (ch : change) (now : Z) :
  sessionInvariant base ctx subm →
  timers (editIncremental ctx ch false now) = [] ∧
  incrementalSent (sent (editIncremental ctx ch false now))
  = incrementalSent (sent ctx) ++ [consolidateChange ch (Some base)] ∧
  baseChangePath (editIncremental ctx ch false now) = base.
Proof.
  intros Hinv. destruct (invariant_clears _ _ _ Hinv) as [_ Hclear].
  destruct Hinv as (Hbase & _). unfold editIncremental. cbn.
  rewrite Hclear, Hbase. split; [reflexivity|]. split; [|reflexivity].
  rewrite !incrementalSent_app. cbn. now rewrite !app_nil_r.
Qed.

(** A droppable change: it is sent or it is the one timer waiting. *)
Lemma editIncremental_droppable base ctx subm (ch : change) (now : Z) :
  sessionInvariant base ctx subm →
  let ctx' := editIncremental ctx ch true now in
  baseChangePath ctx' = base ∧
  ((timers ctx' = [] ∧
    incrementalSent (sent ctx')
    = incrementalSent (sent ctx) ++ [consolidateChange ch (Some base)]) ∨
   (∃ id, timers ctx' = [(id, consolidateChange ch (Some base))] ∧
          timeoutID (throttle ctx') = Some id ∧
          _throttledEditIncrementalTimeoutID ctx' = Some id ∧
          incrementalSent (sent ctx') = incrementalSent (sent ctx))).
Proof.
  intros Hinv. destruct (invariant_clears _ _ _ Hinv) as [Hclear _].
  destruct Hinv as (Hbase & _). cbv zeta.
  unfold editIncremental, throttledEditIncremental. cbn. rewrite Hclear, Hbase.
  destruct (now - lastTime (throttle ctx) >? minTime)%Z; cbn.
  - split; [exact Hbase|]. left. split; [reflexivity|].
    rewrite !incrementalSent_app. cbn. now rewrite !app_nil_r.
  - split; [exact Hbase|]. right. exists (nextTimeoutID ctx).
    repeat split. rewrite !incrementalSent_app. cbn. now rewrite !app_nil_r.
Qed.

Lemma invariant_after_send base ctx ctx' subm (x : change) :
  sessionInvariant base ctx subm →
  baseChangePath ctx' = base →
  (timers ctx' = [] ∧ incrementalSent (sent ctx') = incrementalSent (sent ctx) ++ [x]) ∨
  (∃ id, timers ctx' = [(id, x)] ∧ timeoutID (throttle ctx') = Some id ∧
         _throttledEditIncrementalTimeoutID ctx' = Some id ∧
         incrementalSent (sent ctx') = incrementalSent (sent ctx)) →
  sessionInvariant base ctx' (subm ++ [x]).
Proof.
  intros Hinv Hbase Hcases. pose proof (invariant_sent_sublist _ _ _ Hinv) as Hsub.
  assert (Hlist : incrementalSent (sent ctx') ++ pending ctx'
                  = incrementalSent (sent ctx) ++ [x]).
  { unfold pending. destruct Hcases as [[-> ->]|(id & -> & _ & _ & ->)];
      [apply app_nil_r|reflexivity]. }
  split; [exact Hbase|]. split.
  - destruct Hcases as [[Ht _]|(id & Ht & Hth & Hctx & _)]; [now left|].
    right. now exists id, x.
  - rewrite Hlist. split; [now apply sublist_app|]. now rewrite !last_app_single.
Qed.

Lemma invariant_step base ctx subm (ev : sessionEvent) :
  sessionInvariant base ctx subm →
  sessionInvariant base (sessionStep ctx ev) (subm ++ submitted base [ev]).
Proof.
  intros Hinv. destruct ev as [ch mayDrop now|ch rollback undoInfo broadcast|id];
    cbn [sessionStep submitted flat_map]; rewrite ?app_nil_r.
  - destruct mayDrop.
    + destruct (editIncremental_droppable base ctx subm ch now Hinv) as [Hbase Hcases].
      now apply (invariant_after_send base ctx).
    + destruct (editIncremental_now base ctx subm ch now Hinv) as (Ht & Hs & Hbase).
      apply (invariant_after_send base ctx); auto.
  - destruct Hinv as (Hbase & Htimers & Hsub & Hlast).
    assert (Hsent : incrementalSent (sent (editFinal ctx ch rollback undoInfo broadcast))
                    = incrementalSent (sent ctx)).
    { unfold editFinal. destruct broadcast; cbn; rewrite !incrementalSent_app; cbn;
        now rewrite !app_nil_r. }
    assert (Hsame : timers (editFinal ctx ch rollback undoInfo broadcast) = timers ctx
                    ∧ throttle (editFinal ctx ch rollback undoInfo broadcast) = throttle ctx
                    ∧ _throttledEditIncrementalTimeoutID
                        (editFinal ctx ch rollback undoInfo broadcast)
                      = _throttledEditIncrementalTimeoutID ctx
                    ∧ baseChangePath (editFinal ctx ch rollback undoInfo broadcast)
                      = baseChangePath ctx)
      by (unfold editFinal; destruct broadcast; repeat split).
    destruct Hsame as (Ht & Hth & Hctx & Hb).
    unfold sessionInvariant, pending. now rewrite Hsent, Ht, Hth, Hctx, Hb.
  - destruct Hinv as (Hbase & Htimers & Hsub & Hlast).
    destruct Htimers as [Hnone|(id0 & ch & Ht & Hth & Hctx)].
    + unfold timerFires. rewrite Hnone. cbn [List.find]. repeat split; auto.
    + unfold timerFires. rewrite Ht. cbn [List.find fst].
      destruct (Nat.eqb id0 id) eqn:Hid.
      * apply Nat.eqb_eq in Hid as ->. rewrite clearTimeout_single.
        unfold pending in *. rewrite Ht in Hsub, Hlast. cbn in Hsub, Hlast.
        split; [exact Hbase|]. split; [now left|].
        cbn. rewrite incrementalSent_app. cbn. rewrite app_nil_r. auto.
      * split; [exact Hbase|]. split; [right; now exists id0, ch|]. auto.
Qed.

Lemma submitted_app base (evs evs' : list sessionEvent) :
  submitted base (evs ++ evs') = submitted base evs ++ submitted base evs'.
Proof. apply flat_map_app. Qed.

Lemma invariant_run base ctx subm (evs : list sessionEvent) :
  sessionInvariant base ctx subm →
  sessionInvariant base (runSession ctx evs) (subm ++ submitted base evs).
Proof.
  revert ctx subm. induction evs as [|ev evs IH]; intros ctx subm Hinv.
  - cbn. now rewrite app_nil_r.
  - change (ev :: evs) with ([ev] ++ evs). rewrite submitted_app, app_assoc.
    cbn [runSession fold_left app]. apply IH. now apply invariant_step.
Qed.

Lemma invariant_initially (g : string) base :
  sessionInvariant base (newGlyphEditContext g base) [].
Proof. split; [reflexivity|]. split; [now left|]. split; reflexivity. Qed.

Lemma invariant_session (g : string) base (evs : list sessionEvent) :
  sessionInvariant base (runSession (newGlyphEditContext g base) evs) (submitted base evs).
Proof. apply (invariant_run base _ [] evs), invariant_initially. Qed.
End Throttling.

(** X18.  During a session at most one throttled send is waiting: after
    any sequence of incremental and final edits and timer callbacks on a new
    edit context, at most one timer is scheduled. *)
Theorem at_most_one_timer (g : string) (base : path) (evs : list sessionEvent) :
  (length (timers (runSession (newGlyphEditContext g base) evs)) ≤ 1)%nat.
Proof.
  destruct (invariant_session g base evs) as (_ & [->|(id & ch & -> & _)] & _);
    simpl; lia.
Qed.

(** X19.  Incremental changes reach the remote font in the order they were
    submitted, each at most once: the changes sent with [editIncremental]
    to the font are, in order, a sublist of the changes handed to the edit
    context (consolidated against its base path); throttling can drop
    changes but never reorders or repeats them. *)
Theorem incremental_changes_in_order (g : string) (base : path)
        (evs : list sessionEvent) :
  incrementalSent (sent (runSession (newGlyphEditContext g base) evs))
    `sublist_of` submitted base evs.
Proof. apply (invariant_sent_sublist base), invariant_session. Qed.

(** X20.  The latest incremental change is never lost: at any point of a
    session, the change submitted last is either the last one sent to the
    font or the one waiting in the timer. *)
Theorem latest_change_sent_or_waiting (g : string) (base : path)
        (evs : list sessionEvent) :
  let ctx := runSession (newGlyphEditContext g base) evs in
  last (incrementalSent (sent ctx) ++ pending ctx) = last (submitted base evs).
Proof. cbv zeta. now destruct (invariant_session g base evs) as (_ & _ & _ & H). Qed.

(** X21.  A non-droppable incremental change is sent at once and cancels
    the throttled send that may be waiting: after [editIncremental(change,
    false)], whatever happened in the session before, no timer is left and
    the last change sent to the font is this one. *)
Theorem non_droppable_change_is_sent (g : string) (base : path)
        (evs : list sessionEvent) (ch : change) (now : Z) :
  let ctx := runSession (newGlyphEditContext g base)
                        (evs ++ [CallEditIncremental ch false now]) in
  timers ctx = [] ∧
  last (incrementalSent (sent ctx)) = Some (consolidateChange ch (Some base)).
Proof.
  cbv zeta. unfold runSession. rewrite fold_left_app. cbn [fold_left sessionStep].
  destruct (editIncremental_now base _ _ ch now (invariant_session g base evs))
    as (Ht & Hs & _).
  split; [exact Ht|]. unfold runSession in Hs. rewrite Hs. apply last_app_single.
Qed.

(** ** The change functions on objects and arrays *)

Section ChangeFunctions.
Implicit Types (fields : list (string * value)) (elements items : list value)
         (k : string) (i n : nat).

Lemma assocGet_assocSet_other k k' (v : value) fields :
  k' ≠ k → assocGet k' (assocSet k v fields) = assocGet k' fields.
Proof.
  intros Hne. induction fields as [|[k0 v0] fields IH]; simpl.
  - apply String.eqb_neq in Hne. now rewrite Hne.
  - destruct (String.eqb k k0) eqn:Hk; simpl.
    + apply String.eqb_eq in Hk as ->. apply String.eqb_neq in Hne. now rewrite Hne.
    + destruct (String.eqb k' k0); [reflexivity|exact IH].
Qed.


Lemma apply_assign k (item : value) fields :
  k ≠ "__proto__" →
  applyChange (VObj fields) (assignChange k item) = Returns (VObj (assocSet k item fields)).
Proof. intros Hk. apply String.eqb_neq in Hk. cbn. now rewrite Hk. Qed.


Lemma splice_in_range elements i n items :
  (i ≤ length elements)%nat →
  splice (VArr elements) (VNum (Z.of_nat i)) (VNum (Z.of_nat n)) items
  = Returns (VArr (take i elements ++ items
                   ++ drop (i + Nat.min n (length elements - i)) elements)).
Proof.
  intros Hi. unfold splice. cbn [toInteger].
  assert (Hneg : (Z.of_nat i <? 0)%Z = false) by (apply Z.ltb_ge; lia).
  rewrite Hneg.
  replace (Z.min (Z.of_nat i) (Z.of_nat (length elements))) with (Z.of_nat i) by lia.
  rewrite Nat2Z.id.
  replace (Z.to_nat (Z.of_nat i + Z.min (Z.max (Z.of_nat n) 0)
                                        (Z.of_nat (length elements) - Z.of_nat i)))
    with (i + Nat.min n (length elements - i))%nat by lia.
  reflexivity.
Qed.

Lemma apply_insert elements i items :
  applyChange (VArr elements) (insertChange i items)
  = splice (VArr elements) (VNum (Z.of_nat i)) (VNum 0) items.
Proof. reflexivity. Qed.

Lemma apply_remove elements i n :
  applyChange (VArr elements) (removeChange i n)
  = splice (VArr elements) (VNum (Z.of_nat i)) (VNum (Z.of_nat n)) [].
Proof. unfold removeChange. cbn. now destruct n. Qed.

Lemma apply_replace elements i n items :
  applyChange (VArr elements) (replaceChange i n items)
  = splice (VArr elements) (VNum (Z.of_nat i)) (VNum (Z.of_nat n)) items.
Proof. reflexivity. Qed.
End ChangeFunctions.

(** X22.  Assigning a key of an object and reading it: after the change
    [{f: "=", a: [key, item]}] the object has [item] under [key] and what
    it had before under every other key. *)
Theorem assign_then_read (fields : list (string * value)) (k : string) (item : value)
        (Hk : k ≠ "__proto__") :
  ∃ fields', applyChange (VObj fields) (assignChange k item) = Returns (VObj fields') ∧
             assocGet k fields' = Some item ∧
             ∀ k', k' ≠ k → assocGet k' fields' = assocGet k' fields.
Proof.
  exists (assocSet k item fields). split; [now apply apply_assign|].
  split; [apply assocGet_assocSet|]. intros k' Hk'. now apply assocGet_assocSet_other.
Qed.

Lemma assign_then_read_witness :
  ∃ fields', applyChange (VObj [("xAdvance", VNum 500)]) (assignChange "xAdvance" (VNum 600))
             = Returns (VObj fields') ∧
             assocGet "xAdvance" fields' = Some (VNum 600).
Proof.
  assert (Hk : "xAdvance" ≠ "__proto__") by discriminate.
  destruct (assign_then_read [("xAdvance", VNum 500)] "xAdvance" (VNum 600) Hk)
    as (fields' & Happly & Hget & _).
  now exists fields'.
Defined.



Lemma take_of_take_app {A : Type} (l rest : list A) (i : nat) :
  (i ≤ length l)%nat → take i (take i l ++ rest) = take i l.
Proof.
  intros Hi. rewrite take_app_le by (rewrite length_take; lia).
  rewrite take_take. f_equal. lia.
Qed.

Lemma drop_past_inserted {A : Type} (l items rest : list A) (i : nat) :
  (i ≤ length l)%nat → drop (i + length items) (take i l ++ items ++ rest) = rest.
Proof.
  intros Hi.
  replace (i + length items)%nat with (length (take i l ++ items))
    by (rewrite length_app, length_take; lia).
  rewrite app_assoc. apply drop_app_length.
Qed.

Lemma drop_of_take_app {A : Type} (l rest : list A) (i : nat) :
  (i ≤ length l)%nat → drop i (take i l ++ rest) = rest.
Proof.
  intros Hi. pose proof (drop_past_inserted l [] rest i Hi) as H.
  cbn [length app] in H. now rewrite Nat.add_0_r in H.
Qed.

(** X24.  On arrays, insertion and removal at an index inside the array
    undo each other: inserting items at [i] and then removing as many
    elements at [i] gives the array back, and so does removing [n] elements
    at [i] and then inserting the removed elements at [i]. *)
Theorem insert_and_remove_undo_each_other (elements items : list value) (i n : nat)
        (Hi : (i + n ≤ length elements)%nat) :
  applyChildren [insertChange i items; removeChange i (length items)] (VArr elements)
  = Returns (VArr elements) ∧
  applyChildren [removeChange i n; insertChange i (take n (drop i elements))]
                (VArr elements)
  = Returns (VArr elements).
Proof.
  split.
  - cbn [applyChildren]. rewrite apply_insert.
    change (VNum 0) with (VNum (Z.of_nat 0)). rewrite splice_in_range by lia.
    cbn [bindOutcome]. rewrite apply_remove, splice_in_range
      by (rewrite !length_app, length_take; lia).
    cbn [bindOutcome app]. do 2 f_equal. rewrite Nat.min_0_l, Nat.add_0_r.
    rewrite take_of_take_app by lia.
    replace (Nat.min (length items)
                     (length (take i elements ++ items ++ drop i elements) - i))
      with (length items)
      by (rewrite !length_app, length_take, length_drop; lia).
    rewrite drop_past_inserted by lia. apply take_drop.
  - cbn [applyChildren]. rewrite apply_remove, splice_in_range by lia.
    cbn [bindOutcome app]. rewrite apply_insert.
    change (VNum 0) with (VNum (Z.of_nat 0)). rewrite splice_in_range
      by (rewrite length_app, length_take; lia).
    cbn [bindOutcome]. do 2 f_equal. rewrite Nat.min_0_l, Nat.add_0_r.
    replace (Nat.min n (length elements - i)) with n by lia.
    rewrite take_of_take_app, drop_of_take_app by lia.
    rewrite <- drop_drop, take_drop. apply take_drop.
Qed.

Lemma insert_and_remove_undo_each_other_witness :
  applyChildren [insertChange 1 [VStr "x"; VStr "y"]; removeChange 1 2]
                (VArr [VStr "a"; VStr "b"; VStr "c"])
  = Returns (VArr [VStr "a"; VStr "b"; VStr "c"]) ∧
  applyChildren [removeChange 1 2; insertChange 1 [VStr "b"; VStr "c"]]
                (VArr [VStr "a"; VStr "b"; VStr "c"])
  = Returns (VArr [VStr "a"; VStr "b"; VStr "c"]).
Proof.
  assert (Hi : (1 + 2 ≤ length [VStr "a"; VStr "b"; VStr "c"])%nat) by (simpl; lia).
  destruct (insert_and_remove_undo_each_other [VStr "a"; VStr "b"; VStr "c"]
              [VStr "x"; VStr "y"] 1 2 Hi) as [H1 H2].
  split; [exact H1|exact H2].
Defined.

(** X25.  The replacing splice is a removal followed by an insertion: for
    an index inside the array, [{f: ":", a: [i, n, ...items]}] has the
    effect of [{f: "-", a: [i, n]}] followed by [{f: "+", a: [i,
    ...items]}], also when [n] reaches past the end of the array. *)
Theorem replace_is_remove_then_insert (elements items : list value) (i n : nat)
        (Hi : (i ≤ length elements)%nat) :
  applyChange (VArr elements) (replaceChange i n items)
  = applyChildren [removeChange i n; insertChange i items] (VArr elements).
Proof.
  cbn [applyChildren]. rewrite apply_replace, apply_remove, !splice_in_range by lia.
  cbn [bindOutcome app]. rewrite apply_insert.
  change (VNum 0) with (VNum (Z.of_nat 0)). rewrite splice_in_range
    by (rewrite length_app, length_take; lia).
  cbn [bindOutcome]. rewrite Nat.min_0_l, Nat.add_0_r.
  now rewrite take_of_take_app, drop_of_take_app by lia.
Qed.

Lemma replace_is_remove_then_insert_witness :
  applyChange (VArr [VStr "a"; VStr "b"; VStr "c"]) (replaceChange 1 5 [VStr "x"])
  = Returns (VArr [VStr "a"; VStr "x"]) ∧
  applyChildren [removeChange 1 5; insertChange 1 [VStr "x"]]
                (VArr [VStr "a"; VStr "b"; VStr "c"])
  = Returns (VArr [VStr "a"; VStr "x"]).
Proof.
  assert (Hi : (1 ≤ length [VStr "a"; VStr "b"; VStr "c"])%nat) by (simpl; lia).
  split; [reflexivity|].
  rewrite <- (replace_is_remove_then_insert [VStr "a"; VStr "b"; VStr "c"] [VStr "x"] 1 5 Hi).
  reflexivity.
Defined.
